(** * nls: non-lexical scopes -- a shallow embedding of scope.go

    The Go package keeps a tree of [*Scope] objects on the heap.  Every
    Scope owns a slice of Reapers (cleanup closures), a [container/list] of
    child Scopes, a lifecycle state and a [detach] closure that unlinks it
    from its parent.  The embedding below keeps that shape:

    - a [*Scope] is an address ([ptr]) into a store [gmap ptr Scope];
    - Reapers, Spawners and error handlers are Go closures with side
      effects; they are functions on an arbitrary type [World] that stands
      for everything outside the scope tree (flags, services, the clock);
    - [ctx.Err()] reads the world, so a context may expire while a teardown
      is running;
    - a nil [Reaper] is [None]; calling it panics, and the panic unwinds
      through the deferred finalisation of every [exit] frame;
    - [sync.Mutex] is not modelled: the embedding is sequential, and
      closures cannot re-enter the scope tree. *)

From stdpp Require Import gmap strings list fin_maps.

Set Default Proof Using "Type".
Set Warnings "-register-all".

(** ** Errors, states, channels *)

(** Go [error] values.  Two errors are the same value when they are
    equal here. *)
Definition error := string.

(** [type state string], with its two constants. *)
Inductive state := active | done.

#[global] Instance state_eq_dec : EqDecision state.
Proof. solve_decision. Defined.

Definition state_string (st : state) : string :=
  match st with active => "active" | done => "done" end.

(** The double quote character (code 34). *)
Definition dquote : Ascii.ascii :=
  Ascii.Ascii false true false false false true false false.

(** The verb [%q] of [fmt] for the strings used here (no escapes needed). *)
Definition quote (s : string) : string :=
  String dquote (s +:+ String dquote EmptyString).

(** [fmt.Errorf("cannot spawn in scope with state %q", s.state)] *)
Definition errorf_cannot_spawn (st : state) : error :=
  "cannot spawn in scope with state " +:+ quote (state_string st).

(** Addresses of Scope objects. *)
Abbreviation ptr := nat.

(** [chan error].  [make(chan error)] inside [NewScope] yields a channel
    that belongs to the new Scope; any other channel comes from the
    client. *)
Inductive chan :=
  | ChanOf (owner : ptr)
  | ChanExt (id : nat).

(** The [detach] closure: either [func() {}] or the closure built by
    [NewChildScope], which captures the parent and the list element.  An
    element of [parent.children] is identified by the child it carries:
    every child is pushed once, when it is allocated. *)
Inductive detach_fn :=
  | DetachNop
  | DetachFrom (parent : ptr) (ele : ptr).

(** What a call that may panic produces. *)
Inductive result (A : Type) :=
  | Ret (a : A)
  | Panic.
Arguments Ret {A} a.
Arguments Panic {A}.

Section Nls.

Context {World : Type}.

(** [context.Context]: only [Err] is used by the package. *)
Record Ctx := { ctx_Err : World → option error }.

(** [type Reaper func(context.Context) error]; [None] is the nil func. *)
Definition ReaperFn := Ctx → World → option error * World.
Definition Reaper := option ReaperFn.

(** [type Spawner func(context.Context) (Reaper, error)] *)
Definition Spawner := Ctx → World → (Reaper * option error) * World.

(** [type Scope struct].  The field [state] is [st] here, the name
    [state] being taken by its type; [mu] is left out. *)
Record Scope := mkScope {
  st : state;
  children : list ptr;      (* container/list, front to back *)
  reapers : list Reaper;
  errors : chan;
  detach : detach_fn;
}.

Definition set_st (v : state) (s : Scope) : Scope :=
  mkScope v (children s) (reapers s) (errors s) (detach s).
Definition set_children (v : list ptr) (s : Scope) : Scope :=
  mkScope (st s) v (reapers s) (errors s) (detach s).
Definition set_reapers (v : list Reaper) (s : Scope) : Scope :=
  mkScope (st s) (children s) v (errors s) (detach s).
Definition set_errors (v : chan) (s : Scope) : Scope :=
  mkScope (st s) (children s) (reapers s) v (detach s).
Definition set_detach (v : detach_fn) (s : Scope) : Scope :=
  mkScope (st s) (children s) (reapers s) (errors s) v.

(** The store of Scope objects. *)
Abbreviation heap := (gmap ptr Scope).

(** [ScopeOpt], a func on a Scope pointer; the package offers one. *)
Inductive ScopeOpt :=
  | WithErrorChan (errs : chan).

Definition apply_ScopeOpt (opt : ScopeOpt) (s : Scope) : Scope :=
  match opt with
  | WithErrorChan errs => set_errors errs s
  end.

(** [NewScope]: allocate, then run the options in order. *)
Definition NewScope (opts : list ScopeOpt) (h : heap) : ptr * heap :=
  let p := fresh (dom h) in
  let s := mkScope active [] [] (ChanOf p) DetachNop in
  let s := foldl (λ s opt, apply_ScopeOpt opt s) s opts in
  (p, <[p := s]> h).

(** [list.Remove(ele)] on the children of a Scope.  After [Init] the old
    elements of a list still name it as theirs, and removing one of them
    only rewires links that nothing walks any more: the list belongs to a
    Scope that is done, and is re-initialised before it is ever read.
    Here the list of a done Scope is simply empty. *)
Definition list_Remove (ele : ptr) (l : list ptr) : list ptr :=
  filter (λ c, c ≠ ele) l.

(** Running a [detach] closure. *)
Definition run_detach (d : detach_fn) (h : heap) : heap :=
  match d with
  | DetachNop => h
  | DetachFrom parent ele =>
      alter (λ p, set_children (list_Remove ele (children p)) p) parent h
  end.

(** [Scope.NewChildScope].  [None] only for an address that holds no
    Scope. *)
Definition NewChildScope (s : ptr) (opts : list ScopeOpt) (h : heap)
  : option (ptr * heap) :=
  parent ← h !! s;
  if decide (st parent ≠ active) then Some (s, h)
  else
    let '(child, h1) := NewScope opts h in
    let h2 := alter (λ p, set_children (children p ++ [child]) p) s h1 in
    let h3 := alter (set_detach (DetachFrom s child)) child h2 in
    Some (child, h3).

(** [Scope.Spawn] *)
Definition Spawn (ctx : Ctx) (sp : Spawner) (s : ptr) (h : heap) (w : World)
  : option (option error * heap * World) :=
  sc ← h !! s;
  if decide (st sc ≠ active) then
    Some (Some (errorf_cannot_spawn (st sc)), h, w)
  else
    let '(r, err, w1) := sp ctx w in
    match err with
    | Some e => Some (Some e, h, w1)
    | None => Some (None, <[s := set_reapers (reapers sc ++ [r]) sc]> h, w1)
    end.

(** [MustSpawn]: panic on any error of [Spawn]. *)
Definition MustSpawn (ctx : Ctx) (s : ptr) (sp : Spawner) (h : heap) (w : World)
  : option (result unit * heap * World) :=
  '(err, h1, w1) ← Spawn ctx sp s h w;
  match err with
  | Some _ => Some (Panic, h1, w1)
  | None => Some (Ret (), h1, w1)
  end.

(** [Scope.Err] *)
Definition Err (s : ptr) (h : heap) : option chan := errors <$> h !! s.

(** [exitCfg] and [ExitOpt] *)
Record exitCfg := { onError : error → World → World }.

Inductive ExitOpt :=
  | WithErrorHandler (eh : error → World → World).

Definition apply_ExitOpt (opt : ExitOpt) (cfg : exitCfg) : exitCfg :=
  match opt with
  | WithErrorHandler eh => {| onError := eh |}
  end.

(** The body shared by both loops of [exit], after the step returned [err]:
<<
    if err != nil && err != ctx.Err() { ec.onError(err) }
>> *)
Definition report (ctx : Ctx) (ec : exitCfg) (err : option error) (w : World)
  : World :=
  match err with
  | Some e => if decide (Some e ≠ ctx_Err ctx w) then onError ec e w else w
  | None => w
  end.

(** The second loop of [exit], over the reapers from the last index down.
    The argument is the slice already reversed. *)
Fixpoint reap (ctx : Ctx) (ec : exitCfg) (rs : list Reaper) (w : World)
  : result (option error) * World :=
  match rs with
  | [] => (Ret None, w)
  | None :: _ => (Panic, w)
  | Some r :: rs' =>
      let '(err, w1) := r ctx w in
      let w2 := report ctx ec err w1 in
      match ctx_Err ctx w2 with
      | Some ctxerr => (Ret (Some ctxerr), w2)
      | None => reap ctx ec rs' w2
      end
  end.

(** The first loop of [exit], over the children from [Back()] towards the
    front; [exit_child] is the recursive call. *)
Fixpoint walk (exit_child : ptr → heap → World →
                            option (result (option error) * heap * World))
    (ctx : Ctx) (ec : exitCfg) (cs : list ptr) (h : heap) (w : World)
  : option (result (option error) * heap * World) :=
  match cs with
  | [] => Some (Ret None, h, w)
  | c :: cs' =>
      '(r, h1, w1) ← exit_child c h w;
      match r with
      | Panic => Some (Panic, h1, w1)
      | Ret err =>
          let w2 := report ctx ec err w1 in
          match ctx_Err ctx w2 with
          | Some ctxerr => Some (Ret (Some ctxerr), h1, w2)
          | None => walk exit_child ctx ec cs' h1 w2
          end
      end
  end.

(** The deferred function of [exit]. *)
Definition finalize (s : ptr) (h : heap) : heap :=
  alter (λ sc, set_st done (set_children [] (set_reapers [] sc))) s h.

(** [Scope.exit].  The recursion follows pointers in the store, so it is
    bounded by [fuel]; [None] means the fuel ran out or an address held no
    Scope. *)
Fixpoint exit (fuel : nat) (ctx : Ctx) (ec : exitCfg) (s : ptr) (h : heap)
    (w : World) : option (result (option error) * heap * World) :=
  match fuel with
  | 0 => None
  | S fuel' =>
      sc ← h !! s;
      if decide (st sc ≠ active) then Some (Ret None, finalize s h, w)
      else
        '(r, h1, w1) ←
          walk (exit fuel' ctx ec) ctx ec (reverse (children sc)) h w;
        match r with
        | Ret None =>
            sc1 ← h1 !! s;
            let '(r2, w2) := reap ctx ec (reverse (reapers sc1)) w1 in
            Some (r2, finalize s h1, w2)
        | _ => Some (r, finalize s h1, w1)
        end
  end.

(** The configuration [Scope.Exit] builds: the default handler discards,
    then the options run in order. *)
Definition new_exitCfg (opts : list ExitOpt) : exitCfg :=
  foldl (λ cfg opt, apply_ExitOpt opt cfg) {| onError := λ _ w, w |} opts.

(** [Scope.Exit].  A panic in [s.exit] skips [s.detach()].  No chain of
    children is longer than the number of Scopes in the store, which is
    the fuel given to [exit]. *)
Definition Exit (ctx : Ctx) (opts : list ExitOpt) (s : ptr) (h : heap)
    (w : World) : option (result (option error) * heap * World) :=
  let ec := new_exitCfg opts in
  '(r, h1, w1) ← exit (S (size h)) ctx ec s h w;
  match r with
  | Panic => Some (Panic, h1, w1)
  | Ret err =>
      sc ← h1 !! s;
      Some (Ret err, run_detach (detach sc) h1, w1)
  end.

End Nls.

Arguments Ctx : clear implicits.
Arguments Reaper : clear implicits.
Arguments ReaperFn : clear implicits.
Arguments Spawner : clear implicits.
Arguments Scope : clear implicits.
Arguments exitCfg : clear implicits.
Arguments ExitOpt : clear implicits.

(** ** The ownership tree read off the store

    A Scope and everything below it, as the tree the store holds at an
    address.  This is the view in which the teardown order is stated. *)

Section Tree.

Context {World : Type}.

Abbreviation heap := (gmap ptr (Scope World)).

Inductive tree :=
  | Node (p : ptr) (sc : Scope World) (kids : list tree).

Definition root (t : tree) : ptr :=
  match t with Node p _ _ => p end.

Definition scope_of (t : tree) : Scope World :=
  match t with Node _ sc _ => sc end.

Definition kids_of (t : tree) : list tree :=
  match t with Node _ _ kids => kids end.

(** Every address of the tree, the root first. *)
Fixpoint ptrs (t : tree) : list ptr :=
  match t with Node p _ kids => p :: mjoin (ptrs <$> kids) end.

Fixpoint height (t : tree) : nat :=
  match t with Node _ _ kids => S (max_list (height <$> kids)) end.

(** The store holds the tree [t] at [root t]. *)
Inductive repr (h : heap) : tree → Prop :=
  | repr_node p sc kids :
      h !! p = Some sc →
      children sc = root <$> kids →
      Forall (repr h) kids →
      repr h (Node p sc kids).

(** A tree proper: no address occurs twice. *)
Definition is_tree (h : heap) (t : tree) : Prop :=
  repr h t ∧ NoDup (ptrs t).

(** One visit of either loop of [exit], once the step's result is known. *)
Definition after_step (ctx : Ctx World) (ec : exitCfg World)
    (rw : result (option error) * World) : result (option error) * World :=
  match rw with
  | (Panic, w1) => (Panic, w1)
  | (Ret err, w1) =>
      let w2 := report ctx ec err w1 in
      match ctx_Err ctx w2 with
      | Some ctxerr => (Ret (Some ctxerr), w2)
      | None => (Ret None, w2)
      end
  end.

(** The children loop on trees: the last child of the list is visited
    first, and the walk stops at the first visit that does not end in
    [Ret None]. *)
Definition walk_back (visit : tree → World → result (option error) * World)
    (ctx : Ctx World) (ec : exitCfg World)
  : list tree → World → result (option error) * World :=
  fix go kids w :=
    match kids with
    | [] => (Ret None, w)
    | k :: ks =>
        match go ks w with
        | (Ret None, w0) => after_step ctx ec (visit k w0)
        | rw => rw
        end
    end.

(** [exit] on trees. *)
Fixpoint exit_tree (ctx : Ctx World) (ec : exitCfg World) (t : tree)
    (w : World) : result (option error) * World :=
  match t with
  | Node _ sc kids =>
      if decide (st sc ≠ active) then (Ret None, w)
      else
        match walk_back (exit_tree ctx ec) ctx ec kids w with
        | (Ret None, w1) => reap ctx ec (reverse (reapers sc)) w1
        | rw => rw
        end
  end.

(** The record the deferred function of [exit] leaves behind. *)
Definition finalized (sc : Scope World) : Scope World :=
  set_st done (set_children [] (set_reapers [] sc)).

(** What [exit] does to the store, in terms of the tree: the result and
    the world are those of [exit_tree], nothing outside the tree changes,
    and the root is left finalized. *)
Definition exit_ok (ctx : Ctx World) (ec : exitCfg World) (t : tree) : Prop :=
  ∀ fuel (h : heap) w, height t ≤ fuel → repr h t → NoDup (ptrs t) →
  ∃ h', exit fuel ctx ec (root t) h w
        = Some ((exit_tree ctx ec t w).1, h', (exit_tree ctx ec t w).2)
      ∧ (∀ q, q ∉ ptrs t → h' !! q = h !! q)
      ∧ h' !! root t = Some (finalized (scope_of t)).

(** *** The stores the package builds

    Children are allocated after their parent, a child's [detach] names
    its parent, and no child is listed twice. *)
Record well_formed (h : heap) : Prop := {
  wf_child : ∀ p sc c,
    h !! p = Some sc → c ∈ children sc →
    p < c ∧ ∃ csc, h !! c = Some csc ∧ detach csc = DetachFrom p c;
  wf_NoDup : ∀ p sc, h !! p = Some sc → NoDup (children sc);
}.

(** Every store obtained from the empty one by calls of the package. *)
Inductive reachable : heap → Prop :=
  | reach_empty : reachable ∅
  | reach_NewScope h opts :
      reachable h → reachable (NewScope opts h).2
  | reach_NewChildScope h s opts c h' :
      reachable h → NewChildScope s opts h = Some (c, h') → reachable h'
  | reach_Spawn h ctx sp s w err h' w' :
      reachable h → Spawn ctx sp s h w = Some (err, h', w') → reachable h'
  | reach_Exit h ctx opts s w r h' w' :
      reachable h → Exit ctx opts s h w = Some (r, h', w') → reachable h'.

(** A step that only empties or shortens child lists: the Scopes stay,
    and so does every [detach]. *)
Definition shrinks (h h' : heap) : Prop :=
  dom h' = dom h
  ∧ ∀ p sc sc', h !! p = Some sc → h' !! p = Some sc' →
      detach sc' = detach sc ∧ children sc' `sublist_of` children sc.

(** *** The teardown order, in the words of the specification

    Children from the most recently created to the least recently
    created, each one in full before the next older one, and then the
    Scope's own cleanup actions from the most recently registered to the
    least recently registered.  A Scope that is done contributes
    nothing. *)
Fixpoint teardown_order (t : tree) : list (Reaper World) :=
  match t with
  | Node _ sc kids =>
      if decide (st sc ≠ active) then []
      else mjoin (reverse (teardown_order <$> kids)) ++ reverse (reapers sc)
  end.

(** One cleanup action runs, and its error, if any and if not the
    context's, goes to the observer once. *)
Definition run_one (ctx : Ctx World) (ec : exitCfg World)
    (f : ReaperFn World) (w : World) : World :=
  let '(err, w1) := f ctx w in report ctx ec err w1.

(** Cleanup actions run one after the other, the head of the list first. *)
Definition run_all (ctx : Ctx World) (ec : exitCfg World)
    (fs : list (ReaperFn World)) (w : World) : World :=
  foldl (λ w f, run_one ctx ec f w) w fs.

(** *** Delivery of teardown failures, in the words of the specification

    The cleanup actions run in the given order.  An action that fails with
    an error other than the context's has that error handed to the
    observer [eh], once; it is never returned.  After every action the
    context is consulted, and its error, if it has one, ends the teardown
    and is the value returned. *)
Fixpoint deliver (ctx : Ctx World) (eh : error → World → World)
    (fs : list (ReaperFn World)) (w : World) : option error * World :=
  match fs with
  | [] => (None, w)
  | f :: fs' =>
      let '(err, w1) := f ctx w in
      let w2 := match err with
                | Some e => if decide (Some e = ctx_Err ctx w1) then w1
                            else eh e w1
                | None => w1
                end in
      match ctx_Err ctx w2 with
      | Some ctxerr => (Some ctxerr, w2)
      | None => deliver ctx eh fs' w2
      end
  end.

(** The channel a new Scope ends up with: its own, unless an option
    says otherwise; of several options the last one decides. *)
Definition chan_of_opts (own : chan) (opts : list ScopeOpt) : chan :=
  match last opts with
  | Some (WithErrorChan errs) => errs
  | None => own
  end.

(** *** What the calls of the package do to a store *)

(** [exit] changes a Scope in one way only: the deferred function. *)
Definition only_finalizes (h h' : heap) : Prop :=
  ∀ p, h' !! p = h !! p ∨ h' !! p = finalized <$> h !! p.

(** One call of the package, from store to store. *)
Inductive call : heap → heap → Prop :=
  | call_NewScope h opts :
      call h (NewScope opts h).2
  | call_NewChildScope h s opts c h' :
      NewChildScope s opts h = Some (c, h') → call h h'
  | call_Spawn h ctx sp s w err h' w' :
      Spawn ctx sp s h w = Some (err, h', w') → call h h'
  | call_MustSpawn h ctx sp s w r h' w' :
      MustSpawn ctx s sp h w = Some (r, h', w') → call h h'
  | call_Exit h ctx opts s w r h' w' :
      Exit ctx opts s h w = Some (r, h', w') → call h h'.

(** What a call leaves of a Scope that was there before: it stays, with
    its channel and its [detach]; it does not become active again; it
    gains no child. *)
Definition kept (sc sc' : Scope World) : Prop :=
  errors sc' = errors sc
  ∧ detach sc' = detach sc
  ∧ (st sc = done → st sc' = done).

End Tree.

Arguments tree : clear implicits.

(** ** Scenarios, after scope_test.go

    The world of the tests is a journal: every closure writes a line when
    it runs. *)

Module Demo.

Definition journal := list string.

(** [context.TODO()], an empty context: never canceled, no deadline. *)
Definition background {W : Type} : Ctx W := {| ctx_Err := λ _, None |}.

(** [context.DeadlineExceeded], and a context whose deadline has passed
    before [Exit] is called (TestExitTimeout). *)
Definition DeadlineExceeded : error := "context deadline exceeded".

Definition expired {W : Type} : Ctx W :=
  {| ctx_Err := λ _, Some DeadlineExceeded |}.

(** A Reaper that only leaves a line in the journal. *)
Definition reaper (name : string) : ReaperFn journal :=
  λ _ w, (None, w ++ [name]).

(** A Spawner that succeeds with the given Reaper. *)
Definition spawner {W : Type} (r : Reaper W) : Spawner W :=
  λ _ w, ((r, None), w).

(** A Spawner that fails (TestSyncSpawnError). *)
Definition failing_spawner {W : Type} (e : error) : Spawner W :=
  λ _ w, ((None, Some e), w).

(** A Reaper that fails with [e] (TestExitErrorHandler). *)
Definition failing_reaper (name : string) (e : error) : ReaperFn journal :=
  λ _ w, (Some e, w ++ [name]).

(** The handler of TestExitErrorHandler, keeping what it is given. *)
Definition keep (e : error) (w : journal) : journal := w ++ ["got " +:+ e].

(** A fresh Scope with three registrations, in the order a, b, c. *)
Definition abc0 : ptr * gmap ptr (Scope journal) := NewScope [] ∅.

Definition register (name : string) (sh : ptr * gmap ptr (Scope journal))
  : ptr * gmap ptr (Scope journal) :=
  match Spawn background (spawner (Some (reaper name))) sh.1 sh.2 [] with
  | Some (_, h1, _) => (sh.1, h1)
  | None => sh
  end.

Definition abc : ptr * gmap ptr (Scope journal) :=
  register "c" (register "b" (register "a" abc0)).

Definition abc_tree : tree journal :=
  Node 0 (mkScope active []
            [Some (reaper "a"); Some (reaper "b"); Some (reaper "c")]
            (ChanOf 0) DetachNop) [].

(** TestExitErrorHandler: one Reaper, which fails. *)
Definition failing : ptr * gmap ptr (Scope journal) :=
  let '(s, h) := NewScope [] ∅ in
  match Spawn background (spawner (Some (failing_reaper "r" "boom"))) s h []
  with
  | Some (_, h1, _) => (s, h1)
  | None => (s, h)
  end.

Definition failing_tree : tree journal :=
  Node 0 (mkScope active [] [Some (failing_reaper "r" "boom")]
            (ChanOf 0) DetachNop) [].

(** A Reaper whose effect is to raise a flag; the world is the flag. *)
Definition raise_flag : ReaperFn bool := λ _ _, (None, true).

Definition flagged : ptr * gmap ptr (Scope bool) :=
  let '(s, h) := NewScope [] ∅ in
  match Spawn background (spawner (Some raise_flag)) s h false with
  | Some (_, h1, _) => (s, h1)
  | None => (s, h)
  end.

(** TestDoneState: a Scope that has exited. *)
Definition exited : ptr * gmap ptr (Scope journal) :=
  let '(s, h) := NewScope [] ∅ in
  match Exit background [] s h [] with
  | Some (_, h1, _) => (s, h1)
  | None => (s, h)
  end.

(** A Spawner that would leave a line in the journal if it ran. *)
Definition noisy_spawner : Spawner journal :=
  λ _ w, ((None, None), w ++ ["spawner ran"]).

(** A fresh Scope, nothing registered. *)
Definition fresh_scope : ptr * gmap ptr (Scope journal) := NewScope [] ∅.

(** TestParentChild: root has the children a and d, a has the children
    b and c, d has the child e, created in the order a, b, c, d, e; every
    Scope then registers one Reaper, which writes the Scope's name. *)
Definition family : gmap ptr (Scope journal) :=
  let spawn name s h :=
    '(_, h1, _) ← MustSpawn background s (spawner (Some (reaper name))) h [];
    Some h1 in
  default ∅ (
    let '(root, h) := NewScope [] ∅ in
    '(a, h) ← NewChildScope root [] h;
    '(b, h) ← NewChildScope a [] h;
    '(c, h) ← NewChildScope a [] h;
    '(d, h) ← NewChildScope root [] h;
    '(e, h) ← NewChildScope d [] h;
    h ← spawn "root" root h;
    h ← spawn "a" a h;
    h ← spawn "b" b h;
    h ← spawn "c" c h;
    h ← spawn "d" d h;
    spawn "e" e h).

(** The addresses the Scopes of [family] got. *)
Definition Root : ptr := 0.
Definition A : ptr := 1.
Definition B : ptr := 2.
Definition C : ptr := 3.
Definition D : ptr := 4.
Definition E : ptr := 5.

Definition leaf (p parent : ptr) (name : string) : tree journal :=
  Node p (mkScope active [] [Some (reaper name)] (ChanOf p)
            (DetachFrom parent p)) [].

(** The subtree of [family] at a. *)
Definition A_tree : tree journal :=
  Node A (mkScope active [B; C] [Some (reaper "a")] (ChanOf A)
            (DetachFrom Root A)) [leaf B A "b"; leaf C A "c"].

(** The subtree of [family] at d, and the whole of it. *)
Definition D_tree : tree journal :=
  Node D (mkScope active [E] [Some (reaper "d")] (ChanOf D)
            (DetachFrom Root D)) [leaf E D "e"].

Definition family_tree : tree journal :=
  Node Root (mkScope active [A; D] [Some (reaper "root")] (ChanOf Root)
               DetachNop) [A_tree; D_tree].

(** [family] after [a.Exit] under an empty context. *)
Definition family_without_A : gmap ptr (Scope journal) :=
  match Exit background [] A family [] with
  | Some (_, h, _) => h
  | None => ∅
  end.

(** The states of root, a, b, c, d, e, in that order. *)
Definition states {W : Type} (h : gmap ptr (Scope W)) : list (option state) :=
  (λ p, st <$> h !! p) <$> [Root; A; B; C; D; E].

(** How many Reapers root, a, b, c, d, e hold, in that order. *)
Definition pending {W : Type} (h : gmap ptr (Scope W)) : list (option nat) :=
  (λ p, (length ∘ reapers) <$> h !! p) <$> [Root; A; B; C; D; E].

(** TestSpawnReap: the world is the variable [got]. *)
Definition got_spawner : Spawner nat :=
  λ _ _, ((Some (λ _ _, (None, 2)), None), 1).

(** TestExitTimeout: a Reaper that waits for the context and returns its
    error. *)
Definition waiting_reaper {W : Type} : ReaperFn W :=
  λ ctx w, (ctx_Err ctx w, w).

(** The [testProcess] values of TestParentChild, by name. *)
Definition uninitialized : nat := 0.
Definition spawned : nat := 1.
Definition reaped : nat := 2.

Definition testProcess_Reap (name : string) : ReaperFn (gmap string nat) :=
  λ _ w, (None, <[name := reaped]> w).

Definition testProcess_Spawn (name : string) : Spawner (gmap string nat) :=
  λ _ w, ((Some (testProcess_Reap name), None), <[name := spawned]> w).

(** TestParentChild up to [a.Exit]: the result of [a.Exit] and the
    [testProcess] values after it. *)
Definition TestParentChild_run
  : option (result (option error) * gmap string nat) :=
  let '(root, h) := NewScope [] ∅ in
  '(a, h) ← NewChildScope root [] h;
  '(b, h) ← NewChildScope a [] h;
  '(c, h) ← NewChildScope a [] h;
  '(d, h) ← NewChildScope root [] h;
  '(e, h) ← NewChildScope d [] h;
  '(_, h, w) ← MustSpawn background root (testProcess_Spawn "rootsvc") h ∅;
  '(_, h, w) ← MustSpawn background a (testProcess_Spawn "asvc") h w;
  '(_, h, w) ← MustSpawn background b (testProcess_Spawn "bsvc") h w;
  '(_, h, w) ← MustSpawn background c (testProcess_Spawn "csvc") h w;
  '(_, h, w) ← MustSpawn background d (testProcess_Spawn "dsvc") h w;
  '(_, h, w) ← MustSpawn background e (testProcess_Spawn "esvc") h w;
  '(r, _, w) ← Exit background [] a h w;
  Some (r, w).

(** The store a call leaves, [∅] if the call went wrong. *)
Definition store_of {R W : Type} (x : option (R * gmap ptr (Scope W) * W))
  : gmap ptr (Scope W) :=
  from_option (λ y, y.1.2) ∅ x.

(** A Scope and a child of it, made with the given options. *)
Definition with_child (opts : list ScopeOpt)
    (sh : ptr * gmap ptr (Scope journal)) : ptr * gmap ptr (Scope journal) :=
  default sh (NewChildScope sh.1 opts sh.2).

(** [family] after [root.Exit] under a context whose deadline has
    passed. *)
Definition family_expired : gmap ptr (Scope journal) :=
  store_of (Exit expired [] Root family []).

(** [family] with a nil Reaper stored in b, last. *)
Definition nil_spawner : Spawner journal := λ _ w, ((None, None), w).

Definition family_nil : gmap ptr (Scope journal) :=
  store_of (Spawn background nil_spawner B family []).

Definition A_tree_nil : tree journal :=
  Node A (mkScope active [B; C] [Some (reaper "a")] (ChanOf A)
            (DetachFrom Root A))
    [Node B (mkScope active [] [Some (reaper "b"); None] (ChanOf B)
               (DetachFrom A B)) [];
     leaf C A "c"].

(** A Scope that has exited, a second Scope made afterwards, and the
    first one exited once more. *)
Definition exited_again : gmap ptr (Scope journal) :=
  store_of (Exit background [] 0 (NewScope [] exited.2).2 []).

(** A Spawner that hands back a Reaper and an error at once. *)
Definition reaper_and_error : Spawner journal :=
  λ _ w, ((Some (reaper "lost"), Some "boom"), w).

End Demo.

(** ** Tactics *)

(** Closes [is_tree] on a store and a tree that are both given in full. *)
Ltac solve_is_tree :=
  split;
  [ repeat constructor; vm_compute; reflexivity
  | refine (bool_decide_unpack _ _); vm_compute; exact I ].

(** The test [s.state != active] of the code, on a Scope known to be
    active. *)
Ltac take_active_branch Hst :=
  rewrite decide_False by (by rewrite ?Hst; intros []).

(** ** The tests of scope_test.go, run on the embedding *)

Example scope_test_SpawnReap :
  let '(s, h) := NewScope [] ∅ in
  ∃ h1 h2,
    Spawn Demo.background Demo.got_spawner s h 0 = Some (None, h1, 1)
    ∧ Exit Demo.background [] s h1 1 = Some (Ret None, h2, 2).
Proof. do 2 eexists. split; vm_compute; reflexivity. Qed.

Example scope_test_DoneState :
  let '(s, h) := Demo.exited in
  (∃ e, Spawn Demo.background (Demo.spawner None) s h [] = Some (Some e, h, []))
  ∧ ∃ child,
      NewChildScope s [] h = Some (child, h)
      ∧ (∃ e, Spawn Demo.background (Demo.spawner None) child h []
              = Some (Some e, h, []))
      ∧ Exit Demo.background [] child h [] = Some (Ret None, h, []).
Proof.
  split; [eexists; vm_compute; reflexivity|].
  eexists. split; [vm_compute; reflexivity|].
  split; [eexists|]; vm_compute; reflexivity.
Qed.

Example scope_test_ExitErrorHandler :
  let '(s, h) := Demo.failing in
  ∃ h',
    Exit Demo.background [WithErrorHandler Demo.keep] s h ["r spawned"]
    = Some (Ret None, h', ["r spawned"; "r"; "got boom"]).
Proof. eexists. vm_compute. reflexivity. Qed.

Example scope_test_SyncSpawnError :
  let '(s, h) := Demo.fresh_scope in
  Spawn Demo.background (Demo.failing_spawner "boom") s h []
  = Some (Some "boom", h, []).
Proof. vm_compute. reflexivity. Qed.

Example scope_test_ParentChild :
  ∃ w, Demo.TestParentChild_run = Some (Ret None, w)
       ∧ w !! "rootsvc" = Some Demo.spawned
       ∧ w !! "dsvc" = Some Demo.spawned
       ∧ w !! "esvc" = Some Demo.spawned
       ∧ w !! "asvc" = Some Demo.reaped
       ∧ w !! "bsvc" = Some Demo.reaped
       ∧ w !! "csvc" = Some Demo.reaped.
Proof. eexists. repeat split; vm_compute; reflexivity. Qed.

Example scope_test_ExitTimeout :
  let '(s, h) := NewScope [] ∅ in
  ∃ h1 h2,
    MustSpawn Demo.background s (Demo.spawner (Some Demo.waiting_reaper)) h tt
    = Some (Ret (), h1, tt)
    ∧ Exit Demo.expired [] s h1 tt
      = Some (Ret (Some Demo.DeadlineExceeded), h2, tt).
Proof. do 2 eexists. split; vm_compute; reflexivity. Qed.

Example scope_test_MustSpawn :
  let '(s, h) := NewScope [] ∅ in
  MustSpawn Demo.background s (Demo.failing_spawner "testerr") h tt
  = Some (Panic, h, tt).
Proof. vm_compute. reflexivity. Qed.

(** ** Trees *)

Section TreeFacts.
Context {World : Type}.
Implicit Types (h : gmap ptr (Scope World)) (t : tree World) (w : World).
Implicit Types (ctx : Ctx World) (ec : exitCfg World).

Lemma tree_ind' (P : tree World → Prop) :
  (∀ p sc kids, Forall P kids → P (Node p sc kids)) → ∀ t, P t.
Proof.
  intros HP. fix IH 1. intros [p sc kids]. apply HP.
  induction kids as [|k ks IHks]; constructor; [apply IH | exact IHks].
Qed.

Lemma ptrs_kid (k : tree World) (kids : list (tree World)) (q : ptr) :
  k ∈ kids → q ∈ ptrs k → q ∈ mjoin (ptrs <$> kids).
Proof.
  intros Hk Hq. apply list_elem_of_join. exists (ptrs k). split; [done|].
  by apply list_elem_of_fmap_2.
Qed.

Lemma repr_agree h h' t :
  repr h t → (∀ q, q ∈ ptrs t → h' !! q = h !! q) → repr h' t.
Proof.
  induction t as [p sc kids IH] using tree_ind'.
  intros Hr Hag. inversion Hr as [? ? ? Hp Hc Hk]; subst.
  constructor; [| done |].
  - rewrite Hag; [done | simpl; set_solver].
  - rewrite Forall_forall in IH, Hk |- *. intros k Hin.
    apply IH; [done | by apply Hk |].
    intros q Hq. apply Hag. simpl. right. by eapply ptrs_kid.
Qed.

Lemma repr_dom h t q : repr h t → q ∈ ptrs t → is_Some (h !! q).
Proof.
  induction t as [p sc kids IH] using tree_ind'.
  intros Hr Hq. inversion Hr as [? ? ? Hp Hc Hk]; subst.
  simpl in Hq. apply elem_of_cons in Hq as [-> | Hq]; [by eexists|].
  apply list_elem_of_join in Hq as (l & Hq & Hl).
  apply list_elem_of_fmap in Hl as (k & -> & Hin).
  rewrite Forall_forall in IH, Hk. apply (IH k Hin); [by apply Hk | done].
Qed.

Lemma height_le_ptrs t : height t ≤ length (ptrs t).
Proof.
  induction t as [p sc kids IH] using tree_ind'. simpl.
  apply le_n_S. induction IH as [|k ks Hk _ IHks]; csimpl; [lia|].
  rewrite length_app. lia.
Qed.

End TreeFacts.

(** ** [exit] on the store and [exit_tree] on the tree agree *)

Section Refinement.
Context {World : Type}.
Implicit Types (h : gmap ptr (Scope World)) (t : tree World) (w : World).
Implicit Types (ctx : Ctx World) (ec : exitCfg World).

Lemma walk_back_snoc visit ctx ec (ks : list (tree World)) k w :
  walk_back visit ctx ec (ks ++ [k]) w =
  match after_step ctx ec (visit k w) with
  | (Ret None, w') => walk_back visit ctx ec ks w'
  | rw => rw
  end.
Proof.
  induction ks as [|k0 ks IH]; simpl.
  - by destruct (after_step ctx ec (visit k w)) as [[[e|]|] w'].
  - rewrite IH. by destruct (after_step ctx ec (visit k w)) as [[[e|]|] w'].
Qed.

Lemma walk_refines ctx ec fuel (kids : list (tree World)) :
  Forall (exit_ok ctx ec) kids →
  Forall (λ k, height k ≤ fuel) kids →
  ∀ h w, Forall (repr h) kids → NoDup (mjoin (ptrs <$> kids)) →
  ∃ h', walk (exit fuel ctx ec) ctx ec (reverse (root <$> kids)) h w
        = Some ((walk_back (exit_tree ctx ec) ctx ec kids w).1, h',
                (walk_back (exit_tree ctx ec) ctx ec kids w).2)
      ∧ (∀ q, q ∉ mjoin (ptrs <$> kids) → h' !! q = h !! q).
Proof.
  induction kids as [|k ks IH] using rev_ind; intros Hok Hht h w Hr Hnd.
  - exists h. by split.
  - apply Forall_app in Hok as [Hoks Hok]. apply Forall_app in Hht as [Hhts Hht].
    apply Forall_app in Hr as [Hrs Hr].
    apply Forall_inv in Hok, Hht, Hr.
    rewrite fmap_app, join_app in Hnd. simpl in Hnd. rewrite app_nil_r in Hnd.
    apply NoDup_app in Hnd as (Hnds & Hdisj & Hndk).
    rewrite fmap_app, reverse_app. simpl. rewrite walk_back_snoc.
    destruct (Hok fuel h w Hht Hr Hndk) as (h1 & -> & Hfr & _). simpl.
    assert (Hrs1 : Forall (repr h1) ks).
    { rewrite Forall_forall in Hrs |- *. intros k' Hin.
      eapply repr_agree; [by apply Hrs|]. intros q Hq. apply Hfr.
      intros Hqk. eapply Hdisj; [|done]. by eapply ptrs_kid. }
    assert (Hfr1 : ∀ q, q ∉ mjoin (ptrs <$> (ks ++ [k])) → h1 !! q = h !! q).
    { intros q Hq. apply Hfr. intros Hqk. apply Hq.
      rewrite fmap_app, join_app. simpl. set_solver. }
    destruct (exit_tree ctx ec k w) as [[err|] w1]; simpl.
    + destruct (ctx_Err ctx (report ctx ec err w1)) as [ce|]; simpl.
      * exists h1. by split.
      * destruct (IH Hoks Hhts h1 (report ctx ec err w1) Hrs1 Hnds)
          as (h2 & -> & Hfr2).
        exists h2. split; [done|]. intros q Hq. rewrite Hfr2.
        -- by apply Hfr1.
        -- intros Hq'. apply Hq. rewrite fmap_app, join_app. set_solver.
    + exists h1. by split.
Qed.


Lemma finalize_lookup h s sc :
  h !! s = Some sc → finalize s h !! s = Some (finalized sc).
Proof. intros H. unfold finalize. by rewrite lookup_alter_eq, H. Qed.

Lemma finalize_lookup_ne h s q : q ≠ s → finalize s h !! q = h !! q.
Proof. intros H. unfold finalize. by rewrite lookup_alter_ne. Qed.

Lemma exit_refines ctx ec t : exit_ok ctx ec t.
Proof.
  induction t as [p sc kids IH] using tree_ind'.
  intros fuel h w Hfuel Hr Hnd.
  inversion Hr as [? ? ? Hp Hc Hk]; subst.
  destruct fuel as [|fuel]; [simpl in Hfuel; lia|].
  simpl in Hnd. apply NoDup_cons in Hnd as [Hpk Hndk].
  simpl. rewrite Hp. simpl.
  destruct (decide (st sc ≠ active)) as [Hst|Hst].
  { exists (finalize p h). split; [done|]. split.
    - intros q Hq. apply finalize_lookup_ne. set_solver.
    - by apply finalize_lookup. }
  assert (Hhts : Forall (λ k, height k ≤ fuel) kids).
  { simpl in Hfuel. rewrite Forall_forall. intros k Hin.
    assert (height k ≤ max_list (height <$> kids)); [|lia].
    apply max_list_elem_of_le. by apply list_elem_of_fmap_2. }
  rewrite Hc.
  destruct (walk_refines ctx ec fuel kids IH Hhts h w Hk Hndk)
    as (h1 & -> & Hfr).
  simpl.
  assert (Hp1 : h1 !! p = Some sc) by (by rewrite Hfr).
  destruct (walk_back (exit_tree ctx ec) ctx ec kids w) as [[[e|]|] w1]; simpl.
  - exists (finalize p h1). split; [done|]. split.
    + intros q Hq. rewrite finalize_lookup_ne by set_solver.
      apply Hfr. set_solver.
    + by apply finalize_lookup.
  - rewrite Hp1. simpl.
    destruct (reap ctx ec (reverse (reapers sc)) w1) as [r2 w2].
    exists (finalize p h1). split; [done|]. split.
    + intros q Hq. rewrite finalize_lookup_ne by set_solver.
      apply Hfr. set_solver.
    + by apply finalize_lookup.
  - exists (finalize p h1). split; [done|]. split.
    + intros q Hq. rewrite finalize_lookup_ne by set_solver.
      apply Hfr. set_solver.
    + by apply finalize_lookup.
Qed.


(** [exit] never returns an error other than the one the context reports
    when it returns, whatever the store looks like. *)
Lemma reap_err ctx ec rs w e w' :
  reap ctx ec rs w = (Ret (Some e), w') → ctx_Err ctx w' = Some e.
Proof.
  revert w. induction rs as [|[f|] rs IH]; intros w; simpl; [done| |done].
  destruct (f ctx w) as [err w1].
  destruct (ctx_Err ctx (report ctx ec err w1)) eqn:Hc; [|by apply IH].
  by intros [= <- <-].
Qed.

Lemma walk_err visit ctx ec cs h w e h' w' :
  walk visit ctx ec cs h w = Some (Ret (Some e), h', w') →
  ctx_Err ctx w' = Some e.
Proof.
  revert h w. induction cs as [|c cs IH]; intros h w; simpl; [done|].
  destruct (visit c h w) as [[[[err|] h1] w1]|]; simpl; [|done|done].
  destruct (ctx_Err ctx (report ctx ec err w1)) eqn:Hc; [|by apply IH].
  by intros [= <- <- <-].
Qed.

Lemma exit_err fuel ctx ec s h w e h' w' :
  exit fuel ctx ec s h w = Some (Ret (Some e), h', w') →
  ctx_Err ctx w' = Some e.
Proof.
  destruct fuel as [|fuel]; simpl; [done|].
  destruct (h !! s) as [sc|]; simpl; [|done].
  destruct (decide (st sc ≠ active)); [done|].
  destruct (walk _ ctx ec _ h w) as [[[r h1] w1]|] eqn:Hw; simpl; [|done].
  destruct r as [[e1|]|].
  - intros [= <- <- <-]. by eapply walk_err.
  - destruct (h1 !! s) as [sc1|]; simpl; [|done].
    destruct (reap ctx ec _ w1) as [r2 w2] eqn:Hr.
    intros [= -> <- <-]. by eapply reap_err.
  - done.
Qed.

Lemma finalize_dom h s : dom (finalize s h) = dom h.
Proof. apply dom_alter_L. Qed.

Lemma walk_dom visit ctx ec cs :
  (∀ c h w r h' w', visit c h w = Some (r, h', w') → dom h' = dom h) →
  ∀ h w r h' w',
    walk visit ctx ec cs h w = Some (r, h', w') → dom h' = dom h.
Proof.
  intros Hv. induction cs as [|c cs IH]; intros h w r h' w'; simpl.
  { by intros [= _ <- _]. }
  destruct (visit c h w) as [[[[err|] h1] w1]|] eqn:Hc; simpl; [| |done].
  - apply Hv in Hc.
    destruct (ctx_Err ctx (report ctx ec err w1)).
    + by intros [= _ <- _].
    + intros Hw%IH. congruence.
  - apply Hv in Hc. by intros [= _ <- _].
Qed.

Lemma exit_dom fuel ctx ec s h w r h' w' :
  exit fuel ctx ec s h w = Some (r, h', w') → dom h' = dom h.
Proof.
  revert s h w r h' w'. induction fuel as [|fuel IH]; intros s h w r h' w';
    simpl; [done|].
  destruct (h !! s) as [sc|]; simpl; [|done].
  destruct (decide (st sc ≠ active)).
  { intros [= _ <- _]. apply finalize_dom. }
  destruct (walk _ ctx ec _ h w) as [[[r1 h1] w1]|] eqn:Hw; simpl; [|done].
  apply walk_dom in Hw; [|exact IH].
  destruct r1 as [[e1|]|].
  - intros [= _ <- _]. by rewrite finalize_dom.
  - destruct (h1 !! s) as [sc1|]; simpl; [|done].
    destruct (reap ctx ec _ w1) as [r2 w2].
    intros [= _ <- _]. by rewrite finalize_dom.
  - intros [= _ <- _]. by rewrite finalize_dom.
Qed.

(** Whatever way [exit] ends, the deferred function has run last. *)
Lemma exit_finalizes fuel ctx ec s h w r h' w' :
  exit fuel ctx ec s h w = Some (r, h', w') →
  ∃ sc1, h' !! s = Some (finalized sc1).
Proof.
  destruct fuel as [|fuel]; simpl; [done|].
  destruct (h !! s) as [sc|] eqn:Hs; simpl; [|done].
  destruct (decide (st sc ≠ active)).
  { intros [= _ <- _]. exists sc. by apply finalize_lookup. }
  destruct (walk _ ctx ec _ h w) as [[[r1 h1] w1]|] eqn:Hw; simpl; [|done].
  apply walk_dom in Hw; [|by intros; eapply exit_dom].
  assert (Hs1 : is_Some (h1 !! s)).
  { apply elem_of_dom. rewrite Hw. apply elem_of_dom. by eexists. }
  destruct Hs1 as [sc1 Hs1].
  destruct r1 as [[e1|]|].
  - intros [= _ <- _]. exists sc1. by apply finalize_lookup.
  - rewrite Hs1. simpl. destruct (reap ctx ec _ w1) as [r2 w2].
    intros [= _ <- _]. exists sc1. by apply finalize_lookup.
  - intros [= _ <- _]. exists sc1. by apply finalize_lookup.
Qed.

Lemma is_tree_size h t : is_tree h t → height t ≤ size h.
Proof.
  intros [Hr Hnd]. etrans; [apply height_le_ptrs|].
  rewrite <-size_dom. unfold size, set_size. simpl.
  apply submseteq_length, NoDup_submseteq; [done|].
  intros q Hq. apply elem_of_elements, elem_of_dom. by eapply repr_dom.
Qed.

(** [Exit] on a tree of the store. *)
Lemma Exit_refines ctx opts t h w :
  is_tree h t →
  ∃ h1, (∀ q, q ∉ ptrs t → h1 !! q = h !! q)
      ∧ h1 !! root t = Some (finalized (scope_of t))
      ∧ Exit ctx opts (root t) h w
        = Some ((exit_tree ctx (new_exitCfg opts) t w).1,
                match (exit_tree ctx (new_exitCfg opts) t w).1 with
                | Panic => h1
                | Ret _ => run_detach (detach (scope_of t)) h1
                end,
                (exit_tree ctx (new_exitCfg opts) t w).2).
Proof.
  intros Ht. pose proof (is_tree_size h t Ht) as Hsz. destruct Ht as [Hr Hnd].
  destruct (exit_refines ctx (new_exitCfg opts) t (S (size h)) h w)
    as (h1 & He & Hfr & Hroot); [lia|done|done|].
  exists h1. split; [done|]. split; [done|].
  unfold Exit. rewrite He. simpl.
  destruct (exit_tree ctx (new_exitCfg opts) t w) as [[err|] w1]; simpl; [|done].
  by rewrite Hroot.
Qed.

End Refinement.

(** ** The order of a teardown *)

Section Order.
Context {World : Type}.
Implicit Types (h : gmap ptr (Scope World)) (t : tree World) (w : World).
Implicit Types (ctx : Ctx World) (ec : exitCfg World).

Lemma run_all_app ctx ec (fs gs : list (ReaperFn World)) w :
  run_all ctx ec (fs ++ gs) w = run_all ctx ec gs (run_all ctx ec fs w).
Proof. apply foldl_app. Qed.

Lemma reap_unexpired ctx ec (fs : list (ReaperFn World)) w :
  (∀ w, ctx_Err ctx w = None) →
  reap ctx ec (Some <$> fs) w = (Ret None, run_all ctx ec fs w).
Proof.
  intros Hctx. revert w. induction fs as [|f fs IH]; intros w; csimpl; [done|].
  unfold run_one at 1. destruct (f ctx w) as [err w1].
  by rewrite Hctx, IH.
Qed.

Lemma walk_back_unexpired ctx ec (kids : list (tree World)) :
  (∀ w, ctx_Err ctx w = None) →
  Forall (λ k, ∀ fs w, teardown_order k = Some <$> fs →
               exit_tree ctx ec k w = (Ret None, run_all ctx ec fs w)) kids →
  ∀ fs w, mjoin (reverse (teardown_order <$> kids)) = Some <$> fs →
          walk_back (exit_tree ctx ec) ctx ec kids w
          = (Ret None, run_all ctx ec fs w).
Proof.
  intros Hctx. induction 1 as [|k ks Hk _ IH]; intros fs w Hfs; csimpl in *.
  { by destruct fs. }
  rewrite reverse_cons, join_app in Hfs. simpl in Hfs.
  rewrite app_nil_r in Hfs.
  symmetry in Hfs. apply fmap_app_inv in Hfs as (fa & fb & Ha & Hb & ->).
  rewrite (IH fa w) by done. rewrite (Hk fb _) by done.
  simpl. by rewrite Hctx, run_all_app.
Qed.

Lemma exit_tree_unexpired ctx ec t :
  (∀ w, ctx_Err ctx w = None) →
  ∀ fs w, teardown_order t = Some <$> fs →
          exit_tree ctx ec t w = (Ret None, run_all ctx ec fs w).
Proof.
  intros Hctx. induction t as [p sc kids IH] using tree_ind'.
  intros fs w Hfs. simpl in *.
  destruct (decide (st sc ≠ active)).
  { by destruct fs. }
  symmetry in Hfs. apply fmap_app_inv in Hfs as (fa & fb & Ha & Hb & ->).
  rewrite (walk_back_unexpired ctx ec kids Hctx IH fa w) by done.
  simpl. by rewrite Hb, reap_unexpired, run_all_app.
Qed.

Lemma reap_app ctx ec (l1 l2 : list (Reaper World)) w :
  reap ctx ec (l1 ++ l2) w =
  match reap ctx ec l1 w with
  | (Ret None, w1) => reap ctx ec l2 w1
  | rw => rw
  end.
Proof.
  revert w. induction l1 as [|[f|] l1 IH]; intros w; simpl; [done| |done].
  destruct (f ctx w) as [err w1].
  by destruct (ctx_Err ctx (report ctx ec err w1)).
Qed.

Lemma reap_still_unexpired ctx ec (l : list (Reaper World)) w w' :
  ctx_Err ctx w = None → reap ctx ec l w = (Ret None, w') →
  ctx_Err ctx w' = None.
Proof.
  revert w. induction l as [|[f|] l IH]; intros w Hw; simpl.
  - by intros [= <-].
  - destruct (f ctx w) as [err w1].
    destruct (ctx_Err ctx (report ctx ec err w1)) eqn:Hc; [done|].
    by apply IH.
  - done.
Qed.

(** An error returned by [exit] is the context's, so [report] leaves it
    alone: no result of a child ever reaches the observer. *)
Lemma report_ctx_err ctx ec e w :
  ctx_Err ctx w = Some e → report ctx ec (Some e) w = w.
Proof. intros H. simpl. rewrite H. by rewrite decide_False by (by intros []). Qed.

Lemma walk_back_flat ctx ec (kids : list (tree World)) :
  Forall (λ k, ∀ w, ctx_Err ctx w = None →
               exit_tree ctx ec k w = reap ctx ec (teardown_order k) w) kids →
  ∀ w, ctx_Err ctx w = None →
       walk_back (exit_tree ctx ec) ctx ec kids w
       = reap ctx ec (mjoin (reverse (teardown_order <$> kids))) w.
Proof.
  induction 1 as [|k ks Hk _ IH]; intros w Hw; csimpl; [done|].
  rewrite reverse_cons, join_app, reap_app. simpl. rewrite app_nil_r.
  rewrite IH by done.
  destruct (reap ctx ec _ w) as [[[e|]|] w0] eqn:H0; [done| |done].
  assert (Hw0 : ctx_Err ctx w0 = None) by (by eapply reap_still_unexpired).
  rewrite Hk by done.
  destruct (reap ctx ec (teardown_order k) w0) as [[[e|]|] w1] eqn:H1; simpl.
  - apply reap_err in H1 as Hc. rewrite Hc. by rewrite decide_False, Hc by (by intros []).
  - by rewrite (reap_still_unexpired _ _ _ _ _ Hw0 H1).
  - done.
Qed.

(** Tearing a tree down is the Reaper loop over its whole teardown
    order, as long as the context has not expired when [exit] starts. *)
Lemma exit_tree_flat ctx ec t w :
  ctx_Err ctx w = None →
  exit_tree ctx ec t w = reap ctx ec (teardown_order t) w.
Proof.
  revert w. induction t as [p sc kids IH] using tree_ind'. intros w Hw. simpl.
  destruct (decide (st sc ≠ active)); [done|].
  by rewrite reap_app, walk_back_flat.
Qed.

Lemma walk_back_err visit ctx ec (kids : list (tree World)) w e w' :
  walk_back visit ctx ec kids w = (Ret (Some e), w') →
  ctx_Err ctx w' = Some e.
Proof.
  revert w'. induction kids as [|k ks IH]; intros w'; simpl; [done|].
  destruct (walk_back visit ctx ec ks w) as [[[e0|]|] w0]; [by apply IH| |done].
  destruct (visit k w0) as [[err|] w1]; simpl; [|done].
  destruct (ctx_Err ctx (report ctx ec err w1)) eqn:Hc; [|done].
  by intros [= <- <-].
Qed.

Lemma exit_tree_err ctx ec t w e w' :
  exit_tree ctx ec t w = (Ret (Some e), w') → ctx_Err ctx w' = Some e.
Proof.
  destruct t as [p sc kids]. simpl.
  destruct (decide (st sc ≠ active)); [done|].
  destruct (walk_back _ ctx ec kids w) as [[[e0|]|] w0] eqn:Hw.
  - intros [= <- <-]. by eapply walk_back_err.
  - apply reap_err.
  - done.
Qed.

End Order.

(** ** The stores the package builds are forests *)

Section Stores.
Context {World : Type}.
Implicit Types (h : gmap ptr (Scope World)) (t : tree World) (w : World).
Implicit Types (ctx : Ctx World) (ec : exitCfg World).

Lemma fresh_gt (X : gset nat) x : x ∈ X → x < fresh X.
Proof.
  intros Hx. apply elem_of_elements in Hx.
  unfold fresh, set_fresh. simpl. unfold fresh, infinite_fresh. simpl.
  induction (elements X) as [|y l IH]; [by apply elem_of_nil in Hx|].
  simpl. apply elem_of_cons in Hx as [->|Hx]; [lia|].
  specialize (IH Hx). lia.
Qed.

Lemma fresh_dom_gt h p sc : h !! p = Some sc → p < fresh (dom h).
Proof. intros Hp. apply fresh_gt, elem_of_dom. by eexists. Qed.

Lemma shrinks_refl h : shrinks h h.
Proof. split; [done|]. intros p sc sc' H1 H2. by simplify_eq. Qed.

Lemma shrinks_trans h1 h2 h3 : shrinks h1 h2 → shrinks h2 h3 → shrinks h1 h3.
Proof.
  intros [Hd1 H1] [Hd2 H2]. split; [congruence|].
  intros p sc sc3 Hp Hp3.
  assert (is_Some (h2 !! p)) as [sc2 Hp2].
  { apply elem_of_dom. rewrite Hd1. apply elem_of_dom. by eexists. }
  destruct (H1 p sc sc2 Hp Hp2) as [Ha Hb].
  destruct (H2 p sc2 sc3 Hp2 Hp3) as [Hc He].
  split; [congruence|]. by etrans.
Qed.

Lemma well_formed_shrinks h h' : well_formed h → shrinks h h' → well_formed h'.
Proof.
  intros [Hc Hn] [Hd Hs]. split.
  - intros p sc' c Hp' Hin.
    assert (is_Some (h !! p)) as [sc Hp].
    { apply elem_of_dom. rewrite <-Hd. apply elem_of_dom. by eexists. }
    destruct (Hs p sc sc' Hp Hp') as [_ Hsub].
    destruct (Hc p sc c Hp) as (Hlt & csc & Hcp & Hdet).
    { by eapply elem_of_sublist. }
    split; [done|].
    assert (is_Some (h' !! c)) as [csc' Hcp'].
    { apply elem_of_dom. rewrite Hd. apply elem_of_dom. by eexists. }
    exists csc'. split; [done|].
    destruct (Hs c csc csc' Hcp Hcp') as [-> _]. done.
  - intros p sc' Hp'.
    assert (is_Some (h !! p)) as [sc Hp].
    { apply elem_of_dom. rewrite <-Hd. apply elem_of_dom. by eexists. }
    destruct (Hs p sc sc' Hp Hp') as [_ Hsub].
    eapply sublist_NoDup; [by eapply Hn|done].
Qed.

Lemma finalize_shrinks h s : shrinks h (finalize s h).
Proof.
  split; [apply finalize_dom|]. intros p sc sc' Hp Hp'.
  unfold finalize in Hp'. destruct (decide (p = s)) as [->|Hne].
  - rewrite lookup_alter_eq, Hp in Hp'. simplify_eq/=. split; [done|].
    apply sublist_nil_l.
  - rewrite lookup_alter_ne, Hp in Hp' by done. by simplify_eq.
Qed.

Lemma run_detach_shrinks d h : shrinks h (run_detach d h).
Proof.
  destruct d as [|pa e]; simpl; [apply shrinks_refl|].
  split; [apply dom_alter_L|]. intros p sc sc' Hp Hp'.
  destruct (decide (p = pa)) as [->|Hne].
  - rewrite lookup_alter_eq, Hp in Hp'. simplify_eq/=. split; [done|].
    apply sublist_filter.
  - rewrite lookup_alter_ne, Hp in Hp' by done. by simplify_eq.
Qed.

Lemma walk_shrinks visit ctx ec cs :
  (∀ c h w r h' w', visit c h w = Some (r, h', w') → shrinks h h') →
  ∀ h w r h' w',
    walk visit ctx ec cs h w = Some (r, h', w') → shrinks h h'.
Proof.
  intros Hv. induction cs as [|c cs IH]; intros h w r h' w'; simpl.
  { intros [= _ <- _]. apply shrinks_refl. }
  destruct (visit c h w) as [[[[err|] h1] w1]|] eqn:Hc; simpl; [| |done].
  - apply Hv in Hc.
    destruct (ctx_Err ctx (report ctx ec err w1)).
    + by intros [= _ <- _].
    + intros Hw%IH. by eapply shrinks_trans.
  - apply Hv in Hc. by intros [= _ <- _].
Qed.

Lemma exit_shrinks fuel ctx ec s h w r h' w' :
  exit fuel ctx ec s h w = Some (r, h', w') → shrinks h h'.
Proof.
  revert s h w r h' w'. induction fuel as [|fuel IH]; intros s h w r h' w';
    simpl; [done|].
  destruct (h !! s) as [sc|]; simpl; [|done].
  destruct (decide (st sc ≠ active)).
  { intros [= _ <- _]. apply finalize_shrinks. }
  destruct (walk _ ctx ec _ h w) as [[[r1 h1] w1]|] eqn:Hw; simpl; [|done].
  apply walk_shrinks in Hw; [|exact IH].
  assert (shrinks h (finalize s h1)).
  { eapply shrinks_trans; [done|apply finalize_shrinks]. }
  destruct r1 as [[e1|]|].
  - by intros [= _ <- _].
  - destruct (h1 !! s) as [sc1|]; simpl; [|done].
    destruct (reap ctx ec _ w1) as [r2 w2]. by intros [= _ <- _].
  - by intros [= _ <- _].
Qed.

Lemma Exit_shrinks ctx opts s h w r h' w' :
  Exit ctx opts s h w = Some (r, h', w') → shrinks h h'.
Proof.
  unfold Exit.
  destruct (exit _ ctx _ s h w) as [[[r1 h1] w1]|] eqn:He; simpl; [|done].
  apply exit_shrinks in He. destruct r1 as [err|].
  - destruct (h1 !! s) as [sc|]; simpl; [|done]. intros [= _ <- _].
    eapply shrinks_trans; [done|apply run_detach_shrinks].
  - by intros [= _ <- _].
Qed.

Lemma foldl_ScopeOpt_fields (opts : list ScopeOpt) (sc : Scope World) :
  let sc' := foldl (λ s opt, apply_ScopeOpt opt s) sc opts in
  st sc' = st sc ∧ children sc' = children sc ∧ reapers sc' = reapers sc
  ∧ detach sc' = detach sc.
Proof.
  revert sc. induction opts as [|[c] opts IH]; intros sc; simpl; [done|].
  apply (IH (set_errors c sc)).
Qed.

Lemma well_formed_empty : well_formed (∅ : gmap ptr (Scope World)).
Proof. split; intros p sc; by rewrite lookup_empty. Qed.

(** A Scope without children may be added at a free address. *)
Lemma well_formed_insert_fresh h p sc :
  well_formed h → h !! p = None → children sc = [] →
  well_formed (<[p := sc]> h).
Proof.
  intros [Hc Hn] Hp Hch. split.
  - intros q qsc c Hq Hin. destruct (decide (q = p)) as [->|Hne].
    + rewrite lookup_insert_eq in Hq. simplify_eq. rewrite Hch in Hin.
      by apply elem_of_nil in Hin.
    + rewrite lookup_insert_ne in Hq by done.
      destruct (Hc q qsc c Hq Hin) as (Hlt & csc & Hcp & Hd).
      split; [done|]. exists csc. split; [|done].
      rewrite lookup_insert_ne; [done|]. intros <-. congruence.
  - intros q qsc Hq. destruct (decide (q = p)) as [->|Hne].
    + rewrite lookup_insert_eq in Hq. simplify_eq. rewrite Hch. constructor.
    + rewrite lookup_insert_ne in Hq by done. by eapply Hn.
Qed.

Lemma well_formed_NewScope opts h : well_formed h → well_formed (NewScope opts h).2.
Proof.
  intros Hwf. unfold NewScope. simpl. apply well_formed_insert_fresh; [done| |].
  - apply not_elem_of_dom, is_fresh.
  - by destruct (foldl_ScopeOpt_fields opts
                   (mkScope active [] [] (ChanOf (fresh (dom h))) DetachNop))
      as (_ & -> & _).
Qed.

Lemma well_formed_NewChildScope s opts h c h' :
  well_formed h → NewChildScope s opts h = Some (c, h') → well_formed h'.
Proof.
  intros Hwf. unfold NewChildScope.
  destruct (h !! s) as [parent|] eqn:Hs; simpl; [|done].
  destruct (decide (st parent ≠ active)); [by intros [= _ <-]|].
  unfold NewScope. intros [= <- <-].
  set (c := fresh (dom h)). set (sc0 := foldl _ _ opts).
  assert (Hfresh : h !! c = None) by apply not_elem_of_dom, is_fresh.
  assert (Hsc : s < c) by (by eapply fresh_dom_gt).
  assert (Hch0 : children sc0 = []).
  { destruct (foldl_ScopeOpt_fields opts
                (mkScope active [] [] (ChanOf c) DetachNop)) as (_ & H & _).
    exact H. }
  destruct Hwf as [Hc Hn].
  assert (Hnew : ∀ p sc q, h !! p = Some sc → q ∈ children sc → q ≠ c).
  { intros p sc q Hp Hq ->. destruct (Hc p sc c Hp Hq) as (_ & csc & ? & _).
    congruence. }
  assert (Hlook : ∀ p,
    alter (set_detach (DetachFrom s c)) c
      (alter (λ p, set_children (children p ++ [c]) p) s (<[c:=sc0]> h)) !! p
    = if decide (p = c) then Some (set_detach (DetachFrom s c) sc0)
      else if decide (p = s)
           then Some (set_children (children parent ++ [c]) parent)
           else h !! p).
  { intros p. destruct (decide (p = c)) as [->|Hpc].
    - rewrite lookup_alter_eq, lookup_alter_ne, lookup_insert_eq by lia. done.
    - rewrite lookup_alter_ne by done. destruct (decide (p = s)) as [->|Hps].
      + by rewrite lookup_alter_eq, lookup_insert_ne, Hs by done.
      + by rewrite lookup_alter_ne, lookup_insert_ne by done. }
  split.
  - intros p sc q. rewrite Hlook.
    destruct (decide (p = c)) as [->|Hpc].
    { intros [= <-]. simpl. rewrite Hch0. by intros ?%elem_of_nil. }
    destruct (decide (p = s)) as [->|Hps].
    + intros [= <-]. simpl. intros [Hq| ->%list_elem_of_singleton]%elem_of_app.
      * destruct (Hc s parent q Hs Hq) as (Hlt & csc & Hq' & Hd).
        split; [done|]. exists csc. split; [|done]. rewrite Hlook.
        rewrite decide_False by (by eapply (Hnew s parent)).
        by rewrite decide_False by lia.
      * split; [done|]. eexists. split.
        { rewrite Hlook. by rewrite decide_True. }
        reflexivity.
    + intros Hp Hq. destruct (Hc p sc q Hp Hq) as (Hlt & csc & Hq' & Hd).
      split; [done|]. rewrite Hlook.
      rewrite decide_False by (by eapply (Hnew p sc)).
      destruct (decide (q = s)) as [->|Hqs].
      * rewrite Hs in Hq'. simplify_eq. by eexists.
      * by exists csc.
  - intros p sc. rewrite Hlook.
    destruct (decide (p = c)) as [->|Hpc].
    { intros [= <-]. simpl. rewrite Hch0. constructor. }
    destruct (decide (p = s)) as [->|Hps]; [|by apply Hn].
    intros [= <-]. simpl. apply NoDup_app. split; [by eapply Hn|].
    split; [|apply NoDup_singleton].
    intros q Hq ->%list_elem_of_singleton. by eapply (Hnew s parent).
Qed.

Lemma well_formed_Spawn ctx sp s h w err h' w' :
  well_formed h → Spawn ctx sp s h w = Some (err, h', w') → well_formed h'.
Proof.
  intros Hwf. unfold Spawn.
  destruct (h !! s) as [sc|] eqn:Hs; simpl; [|done].
  destruct (decide (st sc ≠ active)); [by intros [= _ <- _]|].
  destruct (sp ctx w) as [[r [e|]] w1]; [by intros [= _ <- _]|].
  intros [= _ <- _]. apply (well_formed_shrinks h); [done|].
  split; [apply dom_insert_lookup_L; by eexists|].
  intros p psc psc' Hp Hp'. destruct (decide (p = s)) as [->|Hne].
  - rewrite lookup_insert_eq in Hp'. by simplify_eq/=.
  - rewrite lookup_insert_ne in Hp' by done. by simplify_eq.
Qed.

(** Every store the package builds is well formed. *)
Lemma reachable_well_formed h : reachable h → well_formed h.
Proof.
  induction 1 as [|h opts _ IH|h s opts c h' _ IH Hc
                 |h ctx sp s w err h' w' _ IH Hs
                 |h ctx opts s w r h' w' _ IH He].
  - apply well_formed_empty.
  - by apply well_formed_NewScope.
  - by eapply well_formed_NewChildScope.
  - by eapply well_formed_Spawn.
  - eapply well_formed_shrinks; [done|]. by eapply Exit_shrinks.
Qed.

Lemma ptrs_kid_inv (kids : list (tree World)) q :
  q ∈ mjoin (ptrs <$> kids) → ∃ k, k ∈ kids ∧ q ∈ ptrs k.
Proof.
  intros (l & Hq & Hl)%list_elem_of_join.
  apply list_elem_of_fmap in Hl as (k & -> & Hin). by exists k.
Qed.

Lemma repr_kid_child h p sc kids k :
  repr h (Node p sc kids) → k ∈ kids → root k ∈ children sc ∧ repr h k.
Proof.
  intros Hr Hin. inversion Hr as [? ? ? Hp Hc Hk]; subst. split.
  - rewrite Hc. by apply list_elem_of_fmap_2.
  - rewrite Forall_forall in Hk. by apply Hk.
Qed.

Lemma repr_root h t : repr h t → h !! root t = Some (scope_of t).
Proof. by inversion 1. Qed.

(** In a well-formed store addresses grow along the tree. *)
Lemma ptrs_ge h t q : well_formed h → repr h t → q ∈ ptrs t → root t ≤ q.
Proof.
  intros Hwf. revert q. induction t as [p sc kids IH] using tree_ind'.
  intros q Hr Hq. simpl in *. apply elem_of_cons in Hq as [->|Hq]; [done|].
  apply ptrs_kid_inv in Hq as (k & Hin & Hq).
  destruct (repr_kid_child _ _ _ _ _ Hr Hin) as [Hc Hrk].
  rewrite Forall_forall in IH. specialize (IH k Hin q Hrk Hq).
  destruct (wf_child h Hwf p sc (root k)) as [Hlt _]; [by inversion Hr|done|].
  lia.
Qed.

(** Below the root, every address of a tree has its parent in the tree,
    and the parent was allocated first. *)
Lemma ptrs_parent h t q :
  well_formed h → repr h t → q ∈ ptrs t → q ≠ root t →
  ∃ pq qsc, h !! q = Some qsc ∧ detach qsc = DetachFrom pq q
            ∧ pq ∈ ptrs t ∧ pq < q.
Proof.
  intros Hwf. revert q. induction t as [p sc kids IH] using tree_ind'.
  intros q Hr Hq Hne. simpl in *.
  apply elem_of_cons in Hq as [->|Hq]; [done|].
  apply ptrs_kid_inv in Hq as (k & Hin & Hq).
  destruct (repr_kid_child _ _ _ _ _ Hr Hin) as [Hc Hrk].
  destruct (decide (q = root k)) as [->|Hqk].
  - destruct (wf_child h Hwf p sc (root k)) as (Hlt & csc & Hk & Hd);
      [by inversion Hr|done|].
    exists p, csc. split; [done|]. split; [done|]. split; [set_solver|done].
  - rewrite Forall_forall in IH.
    destruct (IH k Hin q Hrk Hq Hqk) as (pq & qsc & H1 & H2 & H3 & H4).
    exists pq, qsc. split; [done|]. split; [done|]. split; [|done].
    right. by eapply ptrs_kid.
Qed.

(** The subtrees of two children of one Scope share no address. *)
Lemma siblings_disjoint h p sc t1 t2 :
  well_formed h → h !! p = Some sc →
  root t1 ∈ children sc → root t2 ∈ children sc → root t1 ≠ root t2 →
  repr h t1 → repr h t2 →
  ∀ q, q ∈ ptrs t1 → q ∈ ptrs t2 → False.
Proof.
  intros Hwf Hp Hc1 Hc2 Hne Hr1 Hr2 q.
  induction (lt_wf q) as [q _ IH]. intros Hq1 Hq2.
  destruct (wf_child h Hwf p sc _ Hp Hc1) as (Hlt1 & csc1 & Hk1 & Hd1).
  destruct (wf_child h Hwf p sc _ Hp Hc2) as (Hlt2 & csc2 & Hk2 & Hd2).
  destruct (decide (q = root t1)) as [->|Hq1'].
  { destruct (ptrs_parent h t2 _ Hwf Hr2 Hq2 Hne) as (pq & qsc & H1 & H2 & H3 & _).
    assert (pq = p) as -> by congruence.
    pose proof (ptrs_ge h t2 p Hwf Hr2 H3). lia. }
  destruct (decide (q = root t2)) as [->|Hq2'].
  { destruct (ptrs_parent h t1 _ Hwf Hr1 Hq1 Hq1') as (pq & qsc & H1 & H2 & H3 & _).
    assert (pq = p) as -> by congruence.
    pose proof (ptrs_ge h t1 p Hwf Hr1 H3). lia. }
  destruct (ptrs_parent h t1 _ Hwf Hr1 Hq1 Hq1')
    as (pq & qsc & H1 & H2 & H3 & H4).
  destruct (ptrs_parent h t2 _ Hwf Hr2 Hq2 Hq2')
    as (pq' & qsc' & H1' & H2' & H3' & _).
  assert (pq' = pq) as -> by congruence.
  by apply (IH pq).
Qed.

Lemma NoDup_kids h p sc (kids : list (tree World)) :
  well_formed h → h !! p = Some sc →
  Forall (λ k, root k ∈ children sc ∧ is_tree h k) kids →
  NoDup (root <$> kids) →
  NoDup (mjoin (ptrs <$> kids)).
Proof.
  intros Hwf Hp. induction 1 as [|k ks [Hc [Hr Hnd]] Hks IH]; csimpl.
  { constructor. }
  intros [Hk Hnds]%NoDup_cons. apply NoDup_app. split; [done|].
  split; [|by apply IH].
  intros q Hq (k' & Hin & Hq')%ptrs_kid_inv.
  rewrite Forall_forall in Hks. destruct (Hks k' Hin) as [Hc' [Hr' _]].
  eapply (siblings_disjoint h p sc k k'); try done.
  intros Heq. apply Hk. rewrite Heq. by apply list_elem_of_fmap_2.
Qed.

(** Every Scope of a well-formed store is the root of a tree. *)
Lemma well_formed_is_tree h p sc :
  well_formed h → h !! p = Some sc →
  ∃ t, root t = p ∧ scope_of t = sc ∧ is_tree h t.
Proof.
  intros Hwf.
  assert (∀ n p sc, h !! p = Some sc → fresh (dom h) - p ≤ n →
                    ∃ t, root t = p ∧ scope_of t = sc ∧ is_tree h t) as Hn.
  { clear p sc. induction n as [|n IH]; intros p sc Hp Hle.
    { pose proof (fresh_dom_gt h p sc Hp). lia. }
    assert (∀ cs, cs ⊆ children sc →
              ∃ kids, root <$> kids = cs
                      ∧ Forall (λ k, root k ∈ children sc ∧ is_tree h k) kids)
      as Hkids.
    { induction cs as [|c cs IHcs]; intros Hsub.
      { by exists []. }
      destruct IHcs as (kids & Hroots & Hall); [set_solver|].
      destruct (wf_child h Hwf p sc c Hp) as (Hlt & csc & Hc & _);
        [set_solver|].
      destruct (IH c csc Hc) as (k & Hk1 & Hk2 & Hk3); [lia|].
      exists (k :: kids). split; [csimpl; congruence|].
      constructor; [|done]. split; [|done]. rewrite Hk1. set_solver. }
    destruct (Hkids (children sc)) as (kids & Hroots & Hall); [done|].
    exists (Node p sc kids). split; [done|]. split; [done|]. split.
    - constructor; [done|done|].
      eapply Forall_impl; [exact Hall|]. by intros k [_ [? _]].
    - simpl. apply NoDup_cons. split.
      + intros (k & Hin & Hq)%ptrs_kid_inv.
        rewrite Forall_forall in Hall. destruct (Hall k Hin) as [Hc [Hr _]].
        pose proof (ptrs_ge h k p Hwf Hr Hq).
        destruct (wf_child h Hwf p sc (root k) Hp Hc) as [Hlt _]. lia.
      + eapply NoDup_kids; [done|done|done|].
        rewrite Hroots. by eapply wf_NoDup. }
  intros Hp. by apply (Hn (fresh (dom h) - p)).
Qed.

(** The store holds at most one tree at an address. *)
Lemma repr_unique h t t' : repr h t → repr h t' → root t = root t' → t = t'.
Proof.
  revert t'. induction t as [p sc kids IH] using tree_ind'.
  intros [p' sc' kids'] Hr Hr' Hroot. simpl in Hroot. subst p'.
  inversion Hr as [? ? ? Hp Hc Hk]; subst.
  inversion Hr' as [? ? ? Hp' Hc' Hk']; subst.
  assert (sc' = sc) as -> by congruence. f_equal.
  rewrite Hc in Hc'. clear Hr Hr' Hp Hp' Hc.
  revert kids' Hc' Hk'. induction kids as [|k ks IHks]; intros [|k' ks'] Hc' Hk';
    csimpl in *; try done.
  injection Hc' as Hroot Hroots.
  apply Forall_cons in IH as [IHk IH]. apply Forall_cons in Hk as [Hk Hks].
  apply Forall_cons in Hk' as [Hk' Hks'].
  f_equal; [by apply IHk | by apply IHks].
Qed.

(** In a well-formed store whatever tree the store holds is a tree
    proper. *)
Lemma well_formed_repr_is_tree h t : well_formed h → repr h t → is_tree h t.
Proof.
  intros Hwf Hr.
  destruct (well_formed_is_tree h (root t) (scope_of t) Hwf (repr_root h t Hr))
    as (t' & Hroot & _ & Ht').
  by rewrite (repr_unique h t t' Hr (proj1 Ht')).
Qed.

(** So every Scope of a store the package has built is the root of a
    tree. *)
Lemma reachable_is_tree h p sc :
  reachable h → h !! p = Some sc →
  ∃ t, root t = p ∧ scope_of t = sc ∧ is_tree h t.
Proof. intros Hr. by apply well_formed_is_tree, reachable_well_formed. Qed.

End Stores.

(** ** Properties of the specification *)

Section Properties.
Context {World : Type}.
Implicit Types (h : gmap ptr (Scope World)) (t : tree World) (w : World).
Implicit Types (ctx : Ctx World) (ec : exitCfg World).

Lemma Spawn_ok ctx sp s h w sc r w1 :
  h !! s = Some sc → st sc = active → sp ctx w = ((r, None), w1) →
  Spawn ctx sp s h w
  = Some (None, <[s := set_reapers (reapers sc ++ [r]) sc]> h, w1).
Proof.
  intros Hs Hst Hsp. unfold Spawn. rewrite Hs. simpl.
  take_active_branch Hst. by rewrite Hsp.
Qed.

Lemma reap_deliver ctx ec (fs : list (ReaperFn World)) w :
  reap ctx ec (Some <$> fs) w
  = (Ret (deliver ctx (onError ec) fs w).1, (deliver ctx (onError ec) fs w).2).
Proof.
  revert w. induction fs as [|f fs IH]; intros w; csimpl; [done|].
  destruct (f ctx w) as [[e|] w1]; simpl.
  - destruct (decide (Some e = ctx_Err ctx w1)) as [He|He].
    + rewrite decide_False by (by intros []).
      destruct (ctx_Err ctx w1); [done|apply IH].
    + rewrite decide_True by done.
      destruct (ctx_Err ctx (onError ec e w1)); [done|apply IH].
  - destruct (ctx_Err ctx w1); [done|apply IH].
Qed.

(** C1.  [Exit] tears down in reverse registration order.  A successful
    [Spawn] appends its Reaper, so [reapers] is in registration order (and
    [children] in creation order, see C7).  For a context that has not
    expired when [Exit] is called, the result and the effects of [Exit] on
    a tree are those of the Reaper loop over [teardown_order]: the
    children from the most recently created to the least recently
    created, each child in full before the next older one, and then the
    Scope's own Reapers from the most recently registered to the least
    recently registered.  If the context does not expire at all and no
    Reaper of the tree is nil, every one of them has run, in that order,
    and [Exit] returns nil. *)
Theorem C1_Exit_reverse_registration_order ctx opts t h w :
  is_tree h t →
  ctx_Err ctx w = None →
  (∀ sp r w1, st (scope_of t) = active → sp ctx w = ((r, None), w1) →
     Spawn ctx sp (root t) h w
     = Some (None,
             <[root t := set_reapers (reapers (scope_of t) ++ [r])
                           (scope_of t)]> h, w1))
  ∧ (∃ h', Exit ctx opts (root t) h w
           = Some ((reap ctx (new_exitCfg opts) (teardown_order t) w).1, h',
                   (reap ctx (new_exitCfg opts) (teardown_order t) w).2))
  ∧ (∀ fs, (∀ w', ctx_Err ctx w' = None) →
           teardown_order t = Some <$> fs →
           ∃ h', Exit ctx opts (root t) h w
                 = Some (Ret None, h', run_all ctx (new_exitCfg opts) fs w)).
Proof.
  intros Ht Hw. split.
  { intros sp r w1 Hst Hsp. destruct Ht as [Hr _].
    by apply Spawn_ok; [apply repr_root|..]. }
  destruct (Exit_refines ctx opts t h w Ht) as (h1 & _ & _ & ->).
  split.
  - rewrite exit_tree_flat by done. by eexists.
  - intros fs Hctx Hfs.
    rewrite (exit_tree_unexpired ctx _ t Hctx fs w Hfs). by eexists.
Qed.

(** C2.  The only error [Exit] returns is the context's: whatever the
    context and the configuration, a returned error is the one the
    context reports at that moment.  Every other teardown failure goes to
    the configured observer, once, and is not returned: for a context
    that has not expired when [Exit] is called and a tree without nil
    Reapers, the value returned and the effects are those of [deliver]
    with the configured observer, over the teardown order. *)
Theorem C2_Exit_returns_only_context_error ctx opts t h w :
  is_tree h t →
  (∃ r h' w', Exit ctx opts (root t) h w = Some (r, h', w')
              ∧ ∀ e, r = Ret (Some e) → ctx_Err ctx w' = Some e)
  ∧ (∀ fs, ctx_Err ctx w = None →
           teardown_order t = Some <$> fs →
           ∃ h', Exit ctx opts (root t) h w
                 = Some (Ret (deliver ctx (onError (new_exitCfg opts)) fs w).1,
                         h',
                         (deliver ctx (onError (new_exitCfg opts)) fs w).2)).
Proof.
  intros Ht.
  destruct (Exit_refines ctx opts t h w Ht) as (h1 & _ & _ & ->).
  split.
  - do 3 eexists. split; [done|]. intros e He.
    eapply exit_tree_err. apply injective_projections; [exact He|done].
  - intros fs Hw Hfs.
    rewrite exit_tree_flat, Hfs, reap_deliver by done. by eexists.
Qed.

Lemma exit_tree_report ctx ec t w err w1 :
  exit_tree ctx ec t w = (Ret err, w1) → report ctx ec err w1 = w1.
Proof.
  destruct err as [e|]; [|done].
  intros He%exit_tree_err. by apply report_ctx_err.
Qed.

(** C3, as the code has it.  The context is consulted after a step, not
    before it.  With a context that has already expired, [Exit] on an
    active Scope still runs the first step.  Without children that step is
    the most recently registered Reaper: it is invoked, its error goes
    through the usual report, [Exit] returns the context's error, and the
    older Reapers are not run.  With children the step is the teardown of
    the most recently created child, after which [Exit] returns the
    context's error (or the panic of that child) and none of the Scope's
    own Reapers is run. *)
Theorem C3_Exit_expired_runs_first_step ctx opts t h w ce :
  is_tree h t →
  st (scope_of t) = active →
  (∀ w', ctx_Err ctx w' = Some ce) →
  (∀ rs f, kids_of t = [] → reapers (scope_of t) = rs ++ [Some f] →
     ∃ h', Exit ctx opts (root t) h w
           = Some (Ret (Some ce), h', run_one ctx (new_exitCfg opts) f w))
  ∧ (∀ ks k, kids_of t = ks ++ [k] →
     ∃ h', Exit ctx opts (root t) h w
           = Some (match (exit_tree ctx (new_exitCfg opts) k w).1 with
                   | Panic => Panic
                   | Ret _ => Ret (Some ce)
                   end, h', (exit_tree ctx (new_exitCfg opts) k w).2)).
Proof.
  intros Ht Hst Hctx.
  destruct (Exit_refines ctx opts t h w Ht) as (h1 & _ & _ & ->).
  destruct t as [p sc kids]. simpl in *.
  rewrite decide_False by (by intros []).
  split.
  - intros rs f -> ->. simpl. rewrite reverse_app. simpl.
    unfold run_one. destruct (f ctx w) as [err w1].
    rewrite Hctx. by eexists.
  - intros ks k ->. rewrite walk_back_snoc.
    destruct (exit_tree ctx (new_exitCfg opts) k w) as [[err|] w1] eqn:Hk; simpl.
    + rewrite (exit_tree_report _ _ _ _ _ _ Hk), Hctx. by eexists.
    + by eexists.
Qed.

Lemma Spawn_done ctx sp s h w sc :
  h !! s = Some sc → st sc = done →
  Spawn ctx sp s h w = Some (Some (errorf_cannot_spawn done), h, w).
Proof.
  intros Hs Hst. unfold Spawn. rewrite Hs. simpl.
  rewrite decide_True by (by rewrite Hst). by rewrite Hst.
Qed.

(** C4.  [Spawn] on a Scope that is done returns an error and nothing
    else happens: the store and the world are the ones given, whatever
    the Spawner is, so the Spawner has not run and nothing was
    registered. *)
Theorem C4_Spawn_on_done_scope ctx sp s h w sc :
  h !! s = Some sc →
  st sc = done →
  Spawn ctx sp s h w = Some (Some (errorf_cannot_spawn done), h, w).
Proof. apply Spawn_done. Qed.

(** C5.  When the Spawner fails on an active Scope, [Spawn] returns that
    very error and the store is unchanged: nothing is registered and the
    Scope stays active.  The world is the one the Spawner left. *)
Theorem C5_Spawn_returns_spawner_error ctx sp s h w sc r e w1 :
  h !! s = Some sc →
  st sc = active →
  sp ctx w = ((r, Some e), w1) →
  Spawn ctx sp s h w = Some (Some e, h, w1).
Proof.
  intros Hs Hst Hsp. unfold Spawn. rewrite Hs. simpl.
  take_active_branch Hst. by rewrite Hsp.
Qed.

Lemma finalize_id h s sc :
  h !! s = Some (finalized sc) → finalize s h = h.
Proof.
  intros Hs. unfold finalize. apply alter_id. intros x Hx.
  rewrite Hs in Hx. by injection Hx as <-.
Qed.

Lemma list_Remove_idemp e l : list_Remove e (list_Remove e l) = list_Remove e l.
Proof.
  unfold list_Remove. induction l as [|c l IH]; [done|].
  rewrite (filter_cons _ c l). destruct (decide (c ≠ e)) as [Hc|Hc]; [|done].
  rewrite filter_cons, decide_True by done. by rewrite IH.
Qed.

Lemma run_detach_idemp d h : run_detach d (run_detach d h) = run_detach d h.
Proof.
  destruct d as [|pa e]; simpl; [done|].
  apply alter_id. intros x Hx. rewrite lookup_alter_eq in Hx.
  destruct (h !! pa) as [y|]; simplify_eq/=.
  unfold set_children. simpl. by rewrite list_Remove_idemp.
Qed.

Lemma run_detach_finalized d h s sc :
  h !! s = Some (finalized sc) → run_detach d h !! s = Some (finalized sc).
Proof.
  intros Hs. destruct d as [|pa e]; simpl; [done|].
  destruct (decide (pa = s)) as [->|Hne].
  - by rewrite lookup_alter_eq, Hs.
  - by rewrite lookup_alter_ne.
Qed.

Lemma Exit_done ctx opts s h w sc :
  h !! s = Some sc → st sc = done →
  Exit ctx opts s h w
  = Some (Ret None, run_detach (detach sc) (finalize s h), w).
Proof.
  intros Hs Hst. unfold Exit. simpl. rewrite Hs. simpl.
  rewrite decide_True by (by rewrite Hst). simpl.
  by rewrite (finalize_lookup _ _ _ Hs).
Qed.

(** C6.  [Exit] on a Scope that is done returns nil and leaves the world
    alone, for every context, expired or not: no cleanup action runs.
    And once an [Exit] has returned, one more [Exit] on the same Scope
    returns nil and changes neither the store nor the world. *)
Theorem C6_Exit_idempotent ctx opts s h w :
  (∀ sc, h !! s = Some sc → st sc = done →
     Exit ctx opts s h w
     = Some (Ret None, run_detach (detach sc) (finalize s h), w))
  ∧ (∀ ctx0 opts0 h0 w0 err,
       Exit ctx0 opts0 s h0 w0 = Some (Ret err, h, w) →
       Exit ctx opts s h w = Some (Ret None, h, w)).
Proof.
  split; [intros sc; apply Exit_done|].
  intros ctx0 opts0 h0 w0 err. unfold Exit at 1.
  destruct (exit _ ctx0 _ s h0 w0) as [[[r h1] w1]|] eqn:He; simpl; [|done].
  apply exit_finalizes in He as [sc1 Hs1].
  destruct r as [err1|]; [|done]. rewrite Hs1. simpl.
  intros [= -> <- <-].
  pose proof (run_detach_finalized (detach sc1) h1 s sc1 Hs1) as Hs.
  rewrite (Exit_done ctx opts s _ w1 _ Hs) by done.
  rewrite (finalize_id _ _ _ Hs). simpl. by rewrite run_detach_idemp.
Qed.

(** C7.  On a parent that is not active, [NewChildScope] returns the
    parent itself and leaves the store as it is, the parent's children
    included; [Spawn] on what was returned is [Spawn] on the parent, and
    fails without running the Spawner.  On an active parent it returns an
    address that was free, where the store now holds an active Scope with
    no children and no Reapers, whatever the options; the parent has the
    new Scope as its last child and no other Scope changed. *)
Theorem C7_NewChildScope s opts h parent :
  h !! s = Some parent →
  (st parent ≠ active →
     NewChildScope s opts h = Some (s, h)
     ∧ ∀ ctx sp w,
         Spawn ctx sp s h w
         = Some (Some (errorf_cannot_spawn (st parent)), h, w))
  ∧ (st parent = active →
     ∃ child sc h',
       NewChildScope s opts h = Some (child, h')
       ∧ h !! child = None
       ∧ h' !! child = Some sc
       ∧ st sc = active ∧ children sc = [] ∧ reapers sc = []
       ∧ detach sc = DetachFrom s child
       ∧ h' !! s = Some (set_children (children parent ++ [child]) parent)
       ∧ ∀ q, q ≠ s → q ≠ child → h' !! q = h !! q).
Proof.
  intros Hs. split.
  - intros Hst. split.
    + unfold NewChildScope. rewrite Hs. simpl. by rewrite decide_True.
    + intros ctx sp w. unfold Spawn. rewrite Hs. simpl. by rewrite decide_True.
  - intros Hst. unfold NewChildScope, NewScope. rewrite Hs. simpl.
    take_active_branch Hst.
    set (child := fresh (dom h)).
    set (sc0 := foldl _ _ opts).
    assert (Hfresh : h !! child = None).
    { apply not_elem_of_dom. apply is_fresh. }
    assert (Hne : s ≠ child) by (intros ->; congruence).
    destruct (foldl_ScopeOpt_fields (World:=World) opts
                (mkScope active [] [] (ChanOf child) DetachNop))
      as (H1 & H2 & H3 & H4). fold sc0 in H1, H2, H3, H4. simpl in *.
    exists child, (set_detach (DetachFrom s child) sc0). eexists.
    split; [done|]. split; [done|].
    split. { by rewrite lookup_alter_eq, lookup_alter_ne, lookup_insert_eq. }
    do 4 (split; [done|]).
    split.
    { by rewrite lookup_alter_ne, lookup_alter_eq, lookup_insert_ne, Hs. }
    intros q Hq1 Hq2.
    by rewrite lookup_alter_ne, lookup_alter_ne, lookup_insert_ne.
Qed.

Lemma run_detach_fields d h s (sc : Scope World) :
  h !! s = Some sc →
  ∃ sc', run_detach d h !! s = Some sc'
         ∧ st sc' = st sc ∧ reapers sc' = reapers sc
         ∧ (children sc = [] → children sc' = []).
Proof.
  intros Hs. destruct d as [|pa e]; simpl; [by exists sc|].
  destruct (decide (pa = s)) as [->|Hne].
  - rewrite lookup_alter_eq, Hs. simpl. eexists. split; [done|].
    simpl. repeat split. by intros ->.
  - rewrite lookup_alter_ne by done. by exists sc.
Qed.

(** C8.  [exit] always ends in the deferred finalisation, however it
    ends: on nil, on the context's error with part of the tree skipped, or
    on a panic.  For every Scope of a store the package has built, [exit]
    and [Exit] produce a result, and the Scope is then done, with no
    Reapers and no children.  From then on an [Exit] of this Scope
    returns nil and runs nothing, whatever the context, so it releases
    nothing that was skipped, and [Spawn] fails. *)
Theorem C8_exit_always_finalizes ctx opts s sc h w :
  reachable h →
  h !! s = Some sc →
  (∀ fuel ec, size h < fuel →
     ∃ r h' w', exit fuel ctx ec s h w = Some (r, h', w')
       ∧ ∃ sc', h' !! s = Some sc'
                ∧ st sc' = done ∧ children sc' = [] ∧ reapers sc' = [])
  ∧ (∃ r h' w', Exit ctx opts s h w = Some (r, h', w')
       ∧ (∃ sc', h' !! s = Some sc'
                 ∧ st sc' = done ∧ children sc' = [] ∧ reapers sc' = [])
       ∧ (∀ ctx2 opts2 w2, ∃ h2,
            Exit ctx2 opts2 s h' w2 = Some (Ret None, h2, w2))
       ∧ (∀ ctx2 sp w2,
            Spawn ctx2 sp s h' w2
            = Some (Some (errorf_cannot_spawn done), h', w2))).
Proof.
  intros Hreach Hs.
  destruct (reachable_is_tree h s sc Hreach Hs) as (t & <- & _ & Ht).
  clear Hs. split.
  - intros fuel ec Hfuel. pose proof (is_tree_size h t Ht).
    destruct Ht as [Hr Hnd].
    destruct (exit_refines ctx ec t fuel h w) as (h1 & He & _ & Hroot);
      [lia|done|done|].
    do 3 eexists. split; [exact He|]. by eexists.
  - destruct (Exit_refines ctx opts t h w Ht) as (h1 & _ & Hroot & ->).
    do 3 eexists. split; [done|].
    assert (∃ sc', match (exit_tree ctx (new_exitCfg opts) t w).1 with
                   | Ret _ => run_detach (detach (scope_of t)) h1
                   | Panic => h1
                   end !! root t = Some sc'
                   ∧ st sc' = done ∧ children sc' = [] ∧ reapers sc' = [])
      as (sc' & Hs' & Hst & Hch & Hrs).
    { destruct ((exit_tree ctx (new_exitCfg opts) t w).1).
      - destruct (run_detach_fields (detach (scope_of t)) h1 _ _ Hroot)
          as (sc' & Hs' & Hst & Hrs & Hch).
        exists sc'. split; [done|]. rewrite Hst, Hrs. auto.
      - by eexists. }
    split; [by exists sc'|]. split.
    + intros ctx2 opts2 w2. rewrite (Exit_done ctx2 opts2 _ _ w2 _ Hs' Hst).
      by eexists.
    + intros ctx2 sp w2. by apply Spawn_done with sc'.
Qed.

Lemma is_tree_set_root h p sc sc' kids :
  is_tree h (Node p sc kids) →
  children sc' = children sc →
  is_tree (<[p := sc']> h) (Node p sc' kids).
Proof.
  intros [Hr Hnd] Hch. inversion Hr as [? ? ? Hp Hc Hk]; subst.
  simpl in Hnd. apply NoDup_cons in Hnd as Hnd'. destruct Hnd' as [Hpk _].
  split; [|done]. constructor.
  - by rewrite lookup_insert_eq.
  - by rewrite Hch.
  - rewrite Forall_forall in Hk |- *. intros k Hin.
    eapply repr_agree; [by apply Hk|]. intros q Hq.
    apply lookup_insert_ne. intros <-. apply Hpk. by eapply ptrs_kid.
Qed.

(** C10.  On every active Scope of a store the package has built, a
    Spawner that returns a nil Reaper and no error is a success for
    [Spawn], which appends the nil Reaper.  An [Exit] of that Scope under
    a context that does not expire then panics: either a Scope below
    panics first, or the children are torn down and the first Reaper
    [exit] calls is the nil one. *)
Theorem C10_nil_reaper_panics ctx sp s sc h w w1 :
  reachable h →
  h !! s = Some sc →
  st sc = active →
  sp ctx w = ((None, None), w1) →
  ∃ h1, Spawn ctx sp s h w = Some (None, h1, w1)
      ∧ reapers <$> h1 !! s = Some (reapers sc ++ [None])
      ∧ ∀ ctx2 opts w2, (∀ w', ctx_Err ctx2 w' = None) →
          ∃ h2 w3, Exit ctx2 opts s h1 w2 = Some (Panic, h2, w3).
Proof.
  intros Hreach Hs Hst Hsp.
  destruct (reachable_is_tree h s sc Hreach Hs) as ([p sc0 kids] & Hp & Hsc & Ht).
  simpl in Hp, Hsc. subst p sc0.
  set (sc' := set_reapers (reapers sc ++ [None]) sc).
  exists (<[s := sc']> h). split; [|split].
  - unfold Spawn. rewrite Hs. simpl.
    take_active_branch Hst. by rewrite Hsp.
  - by rewrite lookup_insert_eq.
  - intros ctx2 opts w2 Hctx.
    assert (Ht' : is_tree (<[s := sc']> h) (Node s sc' kids))
      by (by apply is_tree_set_root with sc).
    destruct (Exit_refines ctx2 opts _ _ w2 Ht') as (h2 & _ & _ & He).
    simpl in He. rewrite He. clear He.
    take_active_branch Hst.
    destruct (walk_back _ ctx2 _ kids w2) as [[[e|]|] w3] eqn:Hw; simpl.
    + apply walk_back_err in Hw. rewrite Hctx in Hw. done.
    + rewrite reverse_app. simpl. by do 2 eexists.
    + by do 2 eexists.
Qed.

(** [Exit] on a child: the subtree is torn down, the parent loses the
    child from its list, and no other Scope changes.  [exit], the
    recursive step, does not even touch the parent. *)
Lemma Exit_frame ctx opts t h w pa psc :
  is_tree h t →
  detach (scope_of t) = DetachFrom pa (root t) →
  h !! pa = Some psc →
  pa ∉ ptrs t →
  (∃ h', Exit ctx opts (root t) h w
         = Some ((exit_tree ctx (new_exitCfg opts) t w).1, h',
                 (exit_tree ctx (new_exitCfg opts) t w).2)
       ∧ (∀ q, q ∉ ptrs t → q ≠ pa → h' !! q = h !! q)
       ∧ ((exit_tree ctx (new_exitCfg opts) t w).1 ≠ Panic →
          h' !! pa
          = Some (set_children (list_Remove (root t) (children psc)) psc)))
  ∧ (∀ fuel, height t ≤ fuel →
       ∃ h1, exit fuel ctx (new_exitCfg opts) (root t) h w
             = Some ((exit_tree ctx (new_exitCfg opts) t w).1, h1,
                     (exit_tree ctx (new_exitCfg opts) t w).2)
           ∧ ∀ q, q ∉ ptrs t → h1 !! q = h !! q).
Proof.
  intros Ht Hd Hpa Hni. split.
  - destruct (Exit_refines ctx opts t h w Ht) as (h1 & Hfr & _ & ->).
    eexists. split; [done|]. rewrite Hd. simpl.
    destruct ((exit_tree ctx (new_exitCfg opts) t w).1) as [err|]; split.
    + intros q Hq Hne. rewrite lookup_alter_ne by done. by apply Hfr.
    + intros _. by rewrite lookup_alter_eq, Hfr, Hpa.
    + intros q Hq _. by apply Hfr.
    + done.
  - intros fuel Hfuel. destruct Ht as [Hr Hnd].
    destruct (exit_refines ctx (new_exitCfg opts) t fuel h w Hfuel Hr Hnd)
      as (h1 & He & Hfr & _).
    by exists h1.
Qed.

End Properties.


(** C3, as stated, fails: one Reaper registered, the deadline already
    passed, and after [Exit] the flag is raised. *)
Lemma C3_counterexample_flag_raised :
  Demo.flagged.2 !! 0
    = Some (mkScope active [] [Some Demo.raise_flag] (ChanOf 0) DetachNop)
  ∧ ctx_Err (@Demo.expired bool) false = Some Demo.DeadlineExceeded
  ∧ Exit Demo.expired [] 0 Demo.flagged.2 false
    = Some (Ret (Some Demo.DeadlineExceeded),
            {[ 0 := mkScope done [] [] (ChanOf 0) DetachNop ]}, true).
Proof. split; [|split]; vm_compute; reflexivity. Qed.

(** C9, as stated, fails in its last clause: when root exits after a,
    the Reaper of e runs before the Reaper of d. *)
Lemma C9_counterexample_E_before_D :
  ∃ h', Exit Demo.background [] Demo.Root Demo.family_without_A []
        = Some (Ret None, h', ["e"; "d"; "root"]).
Proof. eexists. vm_compute. reflexivity. Qed.

(** C9, as the code has it.  [Exit] on a child Scope changes the
    Scopes of its subtree and the child list of its parent, nothing else;
    the result and the effects are those of the subtree's teardown alone;
    [exit], the recursive step, leaves the parent alone too, so a child is
    detached by the outermost call only.  In TestParentChild: after a
    exits, a, b and c are done and their Reapers have run, in the order c,
    b, a; root, d and e are active and still hold their Reapers; root has
    d as its only child.  When root then exits, e is torn down inside d,
    before d's own Reaper runs, and root's own Reaper runs last. *)
Theorem C9_Exit_affects_only_subtree :
  (∀ (World : Type) (ctx : Ctx World) opts (t : tree World) h w pa psc,
     is_tree h t →
     detach (scope_of t) = DetachFrom pa (root t) →
     h !! pa = Some psc →
     pa ∉ ptrs t →
     (∃ h', Exit ctx opts (root t) h w
            = Some ((exit_tree ctx (new_exitCfg opts) t w).1, h',
                    (exit_tree ctx (new_exitCfg opts) t w).2)
          ∧ (∀ q, q ∉ ptrs t → q ≠ pa → h' !! q = h !! q)
          ∧ ((exit_tree ctx (new_exitCfg opts) t w).1 ≠ Panic →
             h' !! pa
             = Some (set_children (list_Remove (root t) (children psc)) psc)))
     ∧ (∀ fuel, height t ≤ fuel →
          ∃ h1, exit fuel ctx (new_exitCfg opts) (root t) h w
                = Some ((exit_tree ctx (new_exitCfg opts) t w).1, h1,
                        (exit_tree ctx (new_exitCfg opts) t w).2)
              ∧ ∀ q, q ∉ ptrs t → h1 !! q = h !! q))
  ∧ (Demo.states Demo.family = replicate 6 (Some active)
     ∧ children <$> Demo.family !! Demo.Root = Some [Demo.A; Demo.D]
     ∧ Exit Demo.background [] Demo.A Demo.family []
       = Some (Ret None, Demo.family_without_A, ["c"; "b"; "a"])
     ∧ Demo.states Demo.family_without_A
       = [Some active; Some done; Some done; Some done;
          Some active; Some active]
     ∧ Demo.pending Demo.family_without_A
       = [Some 1; Some 0; Some 0; Some 0; Some 1; Some 1]
     ∧ children <$> Demo.family_without_A !! Demo.Root = Some [Demo.D]
     ∧ ∃ h', Exit Demo.background [] Demo.Root Demo.family_without_A
               ["c"; "b"; "a"]
             = Some (Ret None, h', ["c"; "b"; "a"; "e"; "d"; "root"])
           ∧ Demo.states h' = replicate 6 (Some done)
           ∧ Demo.pending h' = replicate 6 (Some 0)).
Proof.
  split.
  - intros World ctx opts t h w pa psc. apply Exit_frame.
  - repeat split; try (vm_compute; reflexivity).
    eexists. repeat split; vm_compute; reflexivity.
Qed.

(** ** The properties at concrete inputs *)

Lemma Demo_register_reachable name sh :
  reachable sh.2 → reachable (Demo.register name sh).2.
Proof.
  intros Hr. unfold Demo.register.
  destruct (Spawn _ _ _ _ _) as [[[err h1] w1]|] eqn:Hs; [|done].
  by eapply reach_Spawn.
Defined.

Lemma Demo_abc_reachable : reachable Demo.abc.2.
Proof.
  do 3 apply Demo_register_reachable.
  apply (reach_NewScope ∅ []). apply reach_empty.
Defined.

Lemma C1_witness_abc_and_family :
  (∃ h', Exit Demo.background [] 0 Demo.abc.2 []
         = Some (Ret None, h', ["c"; "b"; "a"]))
  ∧ (∃ h', Exit Demo.background [] Demo.Root Demo.family []
           = Some (Ret None, h', ["e"; "d"; "c"; "b"; "a"; "root"])).
Proof.
  split.
  - apply (C1_Exit_reverse_registration_order Demo.background [] Demo.abc_tree
             Demo.abc.2 [])
      with (fs := [Demo.reaper "c"; Demo.reaper "b"; Demo.reaper "a"]).
    + solve_is_tree.
    + reflexivity.
    + reflexivity.
    + reflexivity.
  - apply (C1_Exit_reverse_registration_order Demo.background [] Demo.family_tree
             Demo.family [])
      with (fs := [Demo.reaper "e"; Demo.reaper "d"; Demo.reaper "c";
                   Demo.reaper "b"; Demo.reaper "a"; Demo.reaper "root"]).
    + solve_is_tree.
    + reflexivity.
    + reflexivity.
    + reflexivity.
Defined.

Lemma C2_witness_error_handler :
  ∃ h', Exit Demo.background [WithErrorHandler Demo.keep] 0 Demo.failing.2 []
        = Some (Ret None, h', ["r"; "got boom"]).
Proof.
  apply (C2_Exit_returns_only_context_error Demo.background
           [WithErrorHandler Demo.keep] Demo.failing_tree Demo.failing.2 [])
    with (fs := [Demo.failing_reaper "r" "boom"]).
  - solve_is_tree.
  - reflexivity.
  - reflexivity.
Defined.

Lemma C3_witness_first_step_only :
  (∃ h', Exit Demo.expired [] 0 Demo.abc.2 []
         = Some (Ret (Some Demo.DeadlineExceeded), h', ["c"]))
  ∧ (∃ h', Exit Demo.expired [] Demo.Root Demo.family []
           = Some (Ret (Some Demo.DeadlineExceeded), h', ["e"])).
Proof.
  split.
  - apply (C3_Exit_expired_runs_first_step Demo.expired [] Demo.abc_tree
             Demo.abc.2 [] Demo.DeadlineExceeded)
      with (rs := [Some (Demo.reaper "a"); Some (Demo.reaper "b")])
           (f := Demo.reaper "c").
    + solve_is_tree.
    + reflexivity.
    + reflexivity.
    + reflexivity.
    + reflexivity.
  - apply (C3_Exit_expired_runs_first_step Demo.expired [] Demo.family_tree
             Demo.family [] Demo.DeadlineExceeded)
      with (ks := [Demo.A_tree]) (k := Demo.D_tree).
    + solve_is_tree.
    + reflexivity.
    + reflexivity.
    + reflexivity.
Defined.

Lemma C4_witness_done_state :
  Spawn Demo.background Demo.noisy_spawner 0 Demo.exited.2 []
  = Some (Some (errorf_cannot_spawn done), Demo.exited.2, []).
Proof.
  apply (C4_Spawn_on_done_scope Demo.background Demo.noisy_spawner 0
           Demo.exited.2 [] (mkScope done [] [] (ChanOf 0) DetachNop)).
  - vm_compute. reflexivity.
  - reflexivity.
Defined.

Lemma C5_witness_boom :
  Spawn Demo.background (Demo.failing_spawner "boom") 0 Demo.fresh_scope.2 []
  = Some (Some "boom", Demo.fresh_scope.2, []).
Proof.
  apply (C5_Spawn_returns_spawner_error Demo.background
           (Demo.failing_spawner "boom") 0 Demo.fresh_scope.2 []
           (mkScope active [] [] (ChanOf 0) DetachNop) None "boom" []).
  - vm_compute. reflexivity.
  - reflexivity.
  - reflexivity.
Defined.

Lemma C6_witness_exit_twice :
  Exit Demo.expired [] 0 Demo.exited.2 []
  = Some (Ret None, Demo.exited.2, [])
  ∧ Exit Demo.background [] 0 Demo.exited.2 ["later"]
    = Some (Ret None, Demo.exited.2, ["later"]).
Proof.
  split.
  - apply (C6_Exit_idempotent Demo.expired [] 0 Demo.exited.2 [])
      with (ctx0 := Demo.background) (opts0 := []) (h0 := Demo.fresh_scope.2)
           (w0 := []) (err := None).
    vm_compute. reflexivity.
  - apply (C6_Exit_idempotent Demo.background [] 0 Demo.exited.2 ["later"])
      with (sc := mkScope done [] [] (ChanOf 0) DetachNop).
    + vm_compute. reflexivity.
    + reflexivity.
Defined.

Lemma C7_witness_child_of_done_and_of_active :
  NewChildScope 0 [] Demo.exited.2 = Some (0, Demo.exited.2)
  ∧ ∃ child sc h',
      NewChildScope 0 [] Demo.fresh_scope.2 = Some (child, h')
      ∧ Demo.fresh_scope.2 !! child = None
      ∧ h' !! child = Some sc
      ∧ st sc = active ∧ children sc = [] ∧ reapers sc = []
      ∧ detach sc = DetachFrom 0 child
      ∧ h' !! 0
        = Some (set_children ([] ++ [child])
                  (mkScope active [] [] (ChanOf 0) DetachNop))
      ∧ ∀ q, q ≠ 0 → q ≠ child → h' !! q = Demo.fresh_scope.2 !! q.
Proof.
  split.
  - apply (C7_NewChildScope 0 [] Demo.exited.2
             (mkScope done [] [] (ChanOf 0) DetachNop)).
    + vm_compute. reflexivity.
    + discriminate.
  - apply (C7_NewChildScope 0 [] Demo.fresh_scope.2
             (mkScope active [] [] (ChanOf 0) DetachNop)).
    + vm_compute. reflexivity.
    + reflexivity.
Defined.

Lemma C8_witness_aborted_exit :
  ∃ r h' w',
    Exit Demo.expired [] 0 Demo.abc.2 [] = Some (r, h', w')
    ∧ (∃ sc', h' !! 0 = Some sc'
              ∧ st sc' = done ∧ children sc' = [] ∧ reapers sc' = [])
    ∧ (∀ ctx2 opts2 w2, ∃ h2,
         Exit ctx2 opts2 0 h' w2 = Some (Ret None, h2, w2))
    ∧ (∀ ctx2 sp w2,
         Spawn ctx2 sp 0 h' w2
         = Some (Some (errorf_cannot_spawn done), h', w2)).
Proof.
  apply (C8_exit_always_finalizes Demo.expired [] 0
           (scope_of Demo.abc_tree) Demo.abc.2 []).
  - exact Demo_abc_reachable.
  - vm_compute. reflexivity.
Defined.

Lemma C9_witness_exit_A :
  ∃ h', Exit Demo.background [] Demo.A Demo.family []
        = Some (Ret None, h', ["c"; "b"; "a"])
      ∧ (∀ q, q ∉ [Demo.A; Demo.B; Demo.C] → q ≠ Demo.Root →
              h' !! q = Demo.family !! q)
      ∧ children <$> h' !! Demo.Root = Some [Demo.D].
Proof.
  destruct (proj1 C9_Exit_affects_only_subtree Demo.journal Demo.background []
              Demo.A_tree Demo.family [] Demo.Root
              (mkScope active [Demo.A; Demo.D] [Some (Demo.reaper "root")]
                 (ChanOf Demo.Root) DetachNop))
    as [(h' & He & Hfr & Hpa) _].
  - solve_is_tree.
  - reflexivity.
  - vm_compute. reflexivity.
  - refine (bool_decide_unpack _ _). vm_compute. exact I.
  - exists h'. split; [exact He|]. split; [exact Hfr|].
    rewrite Hpa; [reflexivity | discriminate].
Defined.

Lemma C10_witness_nil_reaper :
  ∃ h1, Spawn Demo.background Demo.noisy_spawner 0 Demo.abc.2 []
        = Some (None, h1, ["spawner ran"])
      ∧ reapers <$> h1 !! 0
        = Some ([Some (Demo.reaper "a"); Some (Demo.reaper "b");
                 Some (Demo.reaper "c")] ++ [None])
      ∧ ∀ ctx2 opts w2, (∀ w', ctx_Err ctx2 w' = None) →
          ∃ h2 w3, Exit ctx2 opts 0 h1 w2 = Some (Panic, h2, w3).
Proof.
  apply (C10_nil_reaper_panics Demo.background Demo.noisy_spawner 0
           (scope_of Demo.abc_tree) Demo.abc.2 [] ["spawner ran"]).
  - exact Demo_abc_reachable.
  - vm_compute. reflexivity.
  - reflexivity.
  - reflexivity.
Defined.

(** * Further properties of the code *)

(** ** What [exit] may do to a Scope *)

Section Finalisation.
Context {World : Type}.
Implicit Types (h : gmap ptr (Scope World)) (t : tree World) (w : World).
Implicit Types (ctx : Ctx World) (ec : exitCfg World).

Lemma only_finalizes_refl h : only_finalizes h h.
Proof. intros p. by left. Qed.

Lemma only_finalizes_trans h1 h2 h3 :
  only_finalizes h1 h2 → only_finalizes h2 h3 → only_finalizes h1 h3.
Proof.
  intros H12 H23 p. destruct (H23 p) as [->| ->], (H12 p) as [->| ->]; auto.
  right. by destruct (h1 !! p).
Qed.

Lemma finalize_only_finalizes h s : only_finalizes h (finalize s h).
Proof.
  intros p. unfold finalize. destruct (decide (p = s)) as [->|Hne].
  - right. by rewrite lookup_alter_eq.
  - left. by rewrite lookup_alter_ne.
Qed.

Lemma walk_only_finalizes visit ctx ec cs :
  (∀ c h w r h' w', visit c h w = Some (r, h', w') → only_finalizes h h') →
  ∀ h w r h' w',
    walk visit ctx ec cs h w = Some (r, h', w') → only_finalizes h h'.
Proof.
  intros Hv. induction cs as [|c cs IH]; intros h w r h' w'; simpl.
  { intros [= _ <- _]. apply only_finalizes_refl. }
  destruct (visit c h w) as [[[[err|] h1] w1]|] eqn:Hc; simpl; [| |done].
  - apply Hv in Hc.
    destruct (ctx_Err ctx (report ctx ec err w1)).
    + by intros [= _ <- _].
    + intros Hw%IH. by eapply only_finalizes_trans.
  - apply Hv in Hc. by intros [= _ <- _].
Qed.

Lemma exit_only_finalizes fuel ctx ec s h w r h' w' :
  exit fuel ctx ec s h w = Some (r, h', w') → only_finalizes h h'.
Proof.
  revert s h w r h' w'. induction fuel as [|fuel IH]; intros s h w r h' w';
    simpl; [done|].
  destruct (h !! s) as [sc|]; simpl; [|done].
  destruct (decide (st sc ≠ active)).
  { intros [= _ <- _]. apply finalize_only_finalizes. }
  destruct (walk _ ctx ec _ h w) as [[[r1 h1] w1]|] eqn:Hw; simpl; [|done].
  apply walk_only_finalizes in Hw; [|exact IH].
  assert (only_finalizes h (finalize s h1)).
  { eapply only_finalizes_trans; [done|apply finalize_only_finalizes]. }
  destruct r1 as [[e1|]|].
  - by intros [= _ <- _].
  - destruct (h1 !! s) as [sc1|]; simpl; [|done].
    destruct (reap ctx ec _ w1) as [r2 w2]. by intros [= _ <- _].
  - by intros [= _ <- _].
Qed.

End Finalisation.

(** ** The calls, read backwards *)

Section Inversions.
Context {World : Type}.
Implicit Types (h : gmap ptr (Scope World)) (t : tree World) (w : World).
Implicit Types (ctx : Ctx World) (ec : exitCfg World).

(** [Exit] is [exit] and then, unless it panicked, [detach]. *)
Lemma Exit_inv ctx opts s h w r h' w' :
  Exit ctx opts s h w = Some (r, h', w') →
  ∃ h1 sc1, only_finalizes h h1 ∧ shrinks h h1
    ∧ h1 !! s = Some (finalized sc1)
    ∧ h' = match r with
           | Panic => h1
           | Ret _ => run_detach (detach sc1) h1
           end.
Proof.
  unfold Exit.
  destruct (exit _ ctx _ s h w) as [[[r1 h1] w1]|] eqn:He; simpl; [|done].
  pose proof (exit_only_finalizes _ _ _ _ _ _ _ _ _ He) as Hof.
  pose proof (exit_shrinks _ _ _ _ _ _ _ _ _ He) as Hsh.
  apply exit_finalizes in He as [sc1 Hs1].
  destruct r1 as [err|].
  - rewrite Hs1. simpl. intros [= <- <- _]. by exists h1, sc1.
  - intros [= <- <- _]. by exists h1, sc1.
Qed.

Lemma foldl_ScopeOpt_errors (opts : list ScopeOpt) (sc : Scope World) :
  errors (foldl (λ s opt, apply_ScopeOpt opt s) sc opts)
  = chan_of_opts (errors sc) opts.
Proof.
  revert sc. induction opts as [|[c] opts IH] using rev_ind; intros sc.
  - done.
  - rewrite foldl_app. simpl. unfold chan_of_opts. by rewrite last_snoc.
Qed.

(** The two ways [NewChildScope] ends. *)
Lemma NewChildScope_inv s opts h c h' :
  NewChildScope s opts h = Some (c, h') →
  ∃ parent, h !! s = Some parent
    ∧ ((st parent ≠ active ∧ c = s ∧ h' = h)
       ∨ (st parent = active
          ∧ c = fresh (dom h)
          ∧ h !! c = None
          ∧ h' !! s = Some (set_children (children parent ++ [c]) parent)
          ∧ h' !! c = Some (mkScope active [] []
                              (chan_of_opts (ChanOf c) opts)
                              (DetachFrom s c))
          ∧ ∀ q, q ≠ s → q ≠ c → h' !! q = h !! q)).
Proof.
  unfold NewChildScope, NewScope.
  destruct (h !! s) as [parent|] eqn:Hs; simpl; [|done].
  destruct (decide (st parent ≠ active)) as [Hna|Ha].
  { intros [= <- <-]. exists parent. split; [done|]. by left. }
  intros [= <- <-]. exists parent. split; [done|].
  right. assert (Hst : st parent = active).
  { destruct (st parent); [done|]. by destruct Ha. }
  set (c := fresh (dom h)). set (sc0 := foldl _ _ opts).
  assert (Hfresh : h !! c = None) by apply not_elem_of_dom, is_fresh.
  assert (Hne : s ≠ c) by (intros ->; congruence).
  destruct (foldl_ScopeOpt_fields (World:=World) opts
              (mkScope active [] [] (ChanOf c) DetachNop))
    as (H1 & H2 & H3 & H4). fold sc0 in H1, H2, H3, H4. simpl in *.
  pose proof (foldl_ScopeOpt_errors opts
                (mkScope active [] [] (ChanOf c) DetachNop)) as H5.
  fold sc0 in H5. simpl in H5.
  split; [done|]. split; [done|]. split; [done|]. split.
  { by rewrite lookup_alter_ne, lookup_alter_eq, lookup_insert_ne, Hs. }
  split.
  { rewrite lookup_alter_eq, lookup_alter_ne, lookup_insert_eq by done.
    simpl. f_equal. destruct sc0; simpl in *. by subst. }
  intros q Hq1 Hq2.
  by rewrite lookup_alter_ne, lookup_alter_ne, lookup_insert_ne.
Qed.

Lemma NewScope_inv opts h :
  let p := fresh (dom h) in
  NewScope opts h
  = (p, <[p := mkScope active [] [] (chan_of_opts (ChanOf p) opts)
                  DetachNop]> h)
  ∧ h !! p = None.
Proof.
  simpl. split; [|apply not_elem_of_dom, is_fresh].
  unfold NewScope. f_equal. f_equal.
  destruct (foldl_ScopeOpt_fields (World:=World) opts
              (mkScope active [] [] (ChanOf (fresh (dom h))) DetachNop))
    as (H1 & H2 & H3 & H4).
  pose proof (foldl_ScopeOpt_errors opts
           (mkScope active [] [] (ChanOf (fresh (dom h))) DetachNop)) as H5.
  destruct (foldl _ _ opts); simpl in *. by subst.
Qed.

Lemma Spawn_inv ctx sp s h w err h' w' :
  Spawn ctx sp s h w = Some (err, h', w') →
  ∃ sc, h !! s = Some sc
    ∧ (h' = h
       ∨ (st sc = active ∧ ∃ r, h' = <[s := set_reapers (reapers sc ++ [r]) sc]> h)).
Proof.
  unfold Spawn. destruct (h !! s) as [sc|] eqn:Hs; simpl; [|done].
  destruct (decide (st sc ≠ active)) as [Hna|Ha].
  { intros [= _ <- _]. exists sc. split; [done|]. by left. }
  destruct (sp ctx w) as [[r [e|]] w1]; intros [= _ <- _];
    (exists sc; split; [done|]); [by left|].
  right. split; [|by exists r].
  destruct (st sc); [done|]. by destruct Ha.
Qed.

End Inversions.

(** ** What no sequence of calls undoes *)

Section Histories.
Context {World : Type}.
Implicit Types (h : gmap ptr (Scope World)) (t : tree World) (w : World).
Implicit Types (ctx : Ctx World) (ec : exitCfg World).

Lemma kept_refl (sc : Scope World) : kept sc sc.
Proof. by repeat split. Qed.

Lemma kept_trans (sc1 sc2 sc3 : Scope World) :
  kept sc1 sc2 → kept sc2 sc3 → kept sc1 sc3.
Proof.
  intros (H1 & H2 & H3) (H4 & H5 & H6). repeat split; [congruence..|auto].
Qed.

Lemma kept_finalized (sc : Scope World) : kept sc (finalized sc).
Proof. by repeat split. Qed.

Lemma kept_set_children l (sc : Scope World) : kept sc (set_children l sc).
Proof. by repeat split. Qed.

Lemma kept_set_reapers l (sc : Scope World) : kept sc (set_reapers l sc).
Proof. by repeat split. Qed.

Lemma run_detach_kept d h p sc :
  h !! p = Some sc → ∃ sc', run_detach d h !! p = Some sc' ∧ kept sc sc'.
Proof.
  intros Hp. destruct d as [|pa e]; simpl.
  { exists sc. split; [done|apply kept_refl]. }
  destruct (decide (pa = p)) as [->|Hne].
  - rewrite lookup_alter_eq, Hp. simpl. eexists. split; [done|].
    apply kept_set_children.
  - rewrite lookup_alter_ne by done. exists sc. split; [done|apply kept_refl].
Qed.

Lemma Spawn_kept ctx sp s h w err h' w' p sc :
  Spawn ctx sp s h w = Some (err, h', w') → h !! p = Some sc →
  ∃ sc', h' !! p = Some sc' ∧ kept sc sc'.
Proof.
  intros Hs Hp.
  apply Spawn_inv in Hs as (ssc & Hs & [->|(_ & r & ->)]).
  { exists sc. split; [done|apply kept_refl]. }
  destruct (decide (p = s)) as [->|Hne].
  - rewrite lookup_insert_eq. simplify_eq. eexists. split; [done|].
    apply kept_set_reapers.
  - rewrite lookup_insert_ne by done. exists sc. split; [done|apply kept_refl].
Qed.

Lemma call_kept h h' p sc :
  call h h' → h !! p = Some sc → ∃ sc', h' !! p = Some sc' ∧ kept sc sc'.
Proof.
  intros Hcall Hp.
  destruct Hcall as [h opts|h s opts c h1 Hc|h ctx sp s w err h1 w' Hs
                    |h ctx sp s w r h1 w' Hm|h ctx opts s w r h1 w' He].
  - exists sc. split; [|apply kept_refl]. unfold NewScope. simpl.
    rewrite lookup_insert_ne; [done|]. intros <-.
    pose proof (is_fresh (dom h)) as Hf. apply Hf, elem_of_dom. by eexists.
  - apply NewChildScope_inv in Hc
      as (parent & Hs & [(_ & _ & ->)|(Hst & -> & Hf & Hs' & Hc' & Hfr)]).
    { exists sc. split; [done|apply kept_refl]. }
    destruct (decide (p = s)) as [->|Hne].
    + simplify_eq. eexists. split; [done|]. apply kept_set_children.
    + rewrite Hfr; [|done|congruence]. exists sc. split; [done|apply kept_refl].
  - by eapply Spawn_kept.
  - unfold MustSpawn in Hm.
    destruct (Spawn ctx sp s h w) as [[[err h2] w2]|] eqn:Hs; simpl in Hm;
      [|done].
    assert (h1 = h2) as -> by (by destruct err; simplify_eq).
    by eapply Spawn_kept.
  - apply Exit_inv in He as (h2 & sc1 & Hof & _ & _ & ->).
    assert (∃ sc2, h2 !! p = Some sc2 ∧ kept sc sc2) as (sc2 & Hp2 & Hk2).
    { destruct (Hof p) as [Heq|Heq]; rewrite Heq, Hp; simpl.
      - exists sc. split; [done|apply kept_refl].
      - eexists. split; [done|apply kept_finalized]. }
    destruct r as [err|].
    + destruct (run_detach_kept (detach sc1) h2 p sc2 Hp2) as (sc' & Hp' & Hk').
      exists sc'. split; [done|]. by eapply kept_trans.
    + by exists sc2.
Qed.

(** X3.  Whatever calls are made, a Scope that is in the store stays in
    it, with the same error channel and the same [detach], and a Scope
    that is done never becomes active again. *)
Theorem X3_calls_keep_scopes h h' p sc :
  rtc call h h' → h !! p = Some sc →
  ∃ sc', h' !! p = Some sc'
         ∧ errors sc' = errors sc
         ∧ detach sc' = detach sc
         ∧ (st sc = done → st sc' = done).
Proof.
  intros Hcalls. revert sc.
  induction Hcalls as [h|h h1 h' Hc _ IH]; intros sc Hp.
  { by exists sc. }
  destruct (call_kept h h1 p sc Hc Hp) as (sc1 & Hp1 & Hk1).
  destruct (IH sc1 Hp1) as (sc' & Hp' & He & Hd & Hst).
  destruct Hk1 as (He1 & Hd1 & Hst1).
  exists sc'. repeat split; [done|congruence..|auto].
Qed.

(** X4.  The recursive step [exit] changes Scopes in one way only: each
    Scope of the store is afterwards either what it was or what it was
    with the deferred finalisation applied, and no Scope is added or
    removed. *)
Theorem X4_exit_only_finalizes fuel ctx ec s h w r h' w' :
  exit fuel ctx ec s h w = Some (r, h', w') →
  only_finalizes h h' ∧ dom h' = dom h.
Proof.
  intros He. split.
  - by eapply exit_only_finalizes.
  - by eapply exit_dom.
Qed.

(** X17.  [Exit] is [exit] followed by one call of [detach].  There is
    a store that differs from the one before only by Scopes that have
    been finalised, the exited Scope among them; after a panic this is
    the store [Exit] leaves, and otherwise the [detach] of the exited
    Scope has run on it. *)
Theorem X17_Exit_is_exit_then_detach ctx opts s h w r h' w' :
  Exit ctx opts s h w = Some (r, h', w') →
  ∃ h1 sc1, only_finalizes h h1
    ∧ h1 !! s = Some (finalized sc1)
    ∧ h' = match r with
           | Panic => h1
           | Ret _ => run_detach (detach sc1) h1
           end.
Proof.
  intros He. apply Exit_inv in He as (h1 & sc1 & ? & _ & ? & ?).
  by exists h1, sc1.
Qed.

Lemma reachable_done_empty h p sc :
  reachable h → h !! p = Some sc → st sc = done →
  children sc = [] ∧ reapers sc = [].
Proof.
  intros Hr. revert p sc.
  induction Hr as [|h opts _ IH|h s opts c h' _ IH Hc
                  |h ctx sp s w err h' w' _ IH Hs
                  |h ctx opts s w r h' w' _ IH He]; intros p sc Hp Hst.
  - by rewrite lookup_empty in Hp.
  - destruct (NewScope_inv opts h) as [Heq Hf]. rewrite Heq in Hp. simpl in Hp.
    destruct (decide (p = fresh (dom h))) as [->|Hne].
    + rewrite lookup_insert_eq in Hp. by simplify_eq.
    + rewrite lookup_insert_ne in Hp by done. by eapply IH.
  - apply NewChildScope_inv in Hc
      as (parent & Hs & [(_ & _ & ->)|(Hact & -> & Hf & Hs' & Hc' & Hfr)]).
    { by eapply IH. }
    destruct (decide (p = s)) as [->|Hne].
    { rewrite Hs' in Hp. simplify_eq. simpl in Hst. congruence. }
    destruct (decide (p = fresh (dom h))) as [->|Hne'].
    { rewrite Hc' in Hp. by simplify_eq. }
    rewrite Hfr in Hp by done. by eapply IH.
  - apply Spawn_inv in Hs as (ssc & Hs & [->|(Hact & r & ->)]).
    { by eapply IH. }
    destruct (decide (p = s)) as [->|Hne].
    + rewrite lookup_insert_eq in Hp. simplify_eq. simpl in Hst. congruence.
    + rewrite lookup_insert_ne in Hp by done. by eapply IH.
  - apply Exit_inv in He as (h1 & sc1 & Hof & _ & _ & ->).
    assert (H1 : ∀ q qsc, h1 !! q = Some qsc → st qsc = done →
                          children qsc = [] ∧ reapers qsc = []).
    { intros q qsc Hq Hqst. destruct (Hof q) as [Heq|Heq]; rewrite Heq in Hq.
      - by eapply IH.
      - destruct (h !! q); by simplify_eq/=. }
    destruct r as [err|]; [|by eapply H1].
    destruct (detach sc1) as [|pa e]; simpl in Hp; [by eapply H1|].
    destruct (decide (pa = p)) as [->|Hne].
    + rewrite lookup_alter_eq in Hp.
      destruct (h1 !! p) as [psc|] eqn:Hp1; simplify_eq/=.
      destruct (H1 p psc Hp1 Hst) as [-> ->]. done.
    + rewrite lookup_alter_ne in Hp by done. by eapply H1.
Qed.


End Histories.

(** ** The shape of the stores, and the smaller calls *)

Section Shape.
Context {World : Type}.
Implicit Types (h : gmap ptr (Scope World)) (t : tree World) (w : World).
Implicit Types (ctx : Ctx World) (ec : exitCfg World).

(** A [detach] that is not the empty one belongs to the Scope that holds
    it and names a Scope allocated earlier. *)
Lemma reachable_detach h p sc pa e :
  reachable h → h !! p = Some sc → detach sc = DetachFrom pa e →
  e = p ∧ pa < p.
Proof.
  intros Hr. revert p sc.
  induction Hr as [|h opts _ IH|h s opts c h' _ IH Hc
                  |h ctx sp s w err h' w' _ IH Hs
                  |h ctx opts s w r h' w' _ IH He]; intros p sc Hp Hd.
  - by rewrite lookup_empty in Hp.
  - destruct (NewScope_inv opts h) as [Heq Hf]. rewrite Heq in Hp. simpl in Hp.
    destruct (decide (p = fresh (dom h))) as [->|Hne].
    + rewrite lookup_insert_eq in Hp. by simplify_eq.
    + rewrite lookup_insert_ne in Hp by done. by eapply IH.
  - apply NewChildScope_inv in Hc
      as (parent & Hs & [(_ & _ & ->)|(Hact & -> & Hf & Hs' & Hc' & Hfr)]).
    { by eapply IH. }
    destruct (decide (p = s)) as [->|Hne].
    { rewrite Hs' in Hp. simplify_eq. simpl in Hd. by eapply IH. }
    destruct (decide (p = fresh (dom h))) as [->|Hne'].
    { rewrite Hc' in Hp. simplify_eq/=. split; [done|].
      by eapply fresh_dom_gt. }
    rewrite Hfr in Hp by done. by eapply IH.
  - apply Spawn_inv in Hs as (ssc & Hs & [->|(Hact & r & ->)]).
    { by eapply IH. }
    destruct (decide (p = s)) as [->|Hne].
    + rewrite lookup_insert_eq in Hp. simplify_eq. simpl in Hd. by eapply IH.
    + rewrite lookup_insert_ne in Hp by done. by eapply IH.
  - apply Exit_shrinks in He as [Hdom Hsh].
    assert (is_Some (h !! p)) as [sc0 Hp0].
    { apply elem_of_dom. rewrite <-Hdom. apply elem_of_dom. by eexists. }
    destruct (Hsh p sc0 sc Hp0 Hp) as [Hd' _].
    eapply IH; [done|congruence].
Qed.

(** X7.  The stores the package builds are forests.  Every listed child
    is in the store, was allocated after its parent, and has a [detach]
    that names this parent and itself; no Scope lists a child twice; no
    Scope is listed by two parents; and every Scope is the root of a
    tree. *)
Theorem X7_stores_are_forests h :
  reachable h →
  (∀ p sc c, h !! p = Some sc → c ∈ children sc →
     p < c ∧ ∃ csc, h !! c = Some csc ∧ detach csc = DetachFrom p c)
  ∧ (∀ p sc, h !! p = Some sc → NoDup (children sc))
  ∧ (∀ p1 p2 sc1 sc2 c,
       h !! p1 = Some sc1 → h !! p2 = Some sc2 →
       c ∈ children sc1 → c ∈ children sc2 → p1 = p2)
  ∧ (∀ p sc, h !! p = Some sc →
       ∃ t, root t = p ∧ scope_of t = sc ∧ is_tree h t).
Proof.
  intros Hr. pose proof (reachable_well_formed h Hr) as Hwf.
  split; [apply (wf_child h Hwf)|]. split; [apply (wf_NoDup h Hwf)|]. split.
  - intros p1 p2 sc1 sc2 c H1 H2 Hc1 Hc2.
    destruct (wf_child h Hwf p1 sc1 c H1 Hc1) as (_ & csc1 & Hc & Hd1).
    destruct (wf_child h Hwf p2 sc2 c H2 Hc2) as (_ & csc2 & Hc' & Hd2).
    congruence.
  - intros p sc. by apply well_formed_is_tree.
Qed.

(** X9.  When [Exit] panics (a nil Reaper somewhere below), the Scope is
    finalised all the same, but [detach] is not called: no Scope outside
    the subtree changes, so the parent still lists the Scope. *)
Theorem X9_panic_skips_detach ctx opts t h w h' w' :
  is_tree h t →
  Exit ctx opts (root t) h w = Some (Panic, h', w') →
  h' !! root t = Some (finalized (scope_of t))
  ∧ ∀ q, q ∉ ptrs t → h' !! q = h !! q.
Proof.
  intros Ht He.
  destruct (Exit_refines ctx opts t h w Ht) as (h1 & Hfr & Hroot & He').
  rewrite He' in He.
  destruct ((exit_tree ctx (new_exitCfg opts) t w).1) as [err|];
    simplify_eq. done.
Qed.

Lemma Exit_empty ctx opts s h w sc :
  h !! s = Some sc →
  st sc = active → children sc = [] → reapers sc = [] →
  Exit ctx opts s h w
  = Some (Ret None, run_detach (detach sc) (finalize s h), w).
Proof.
  intros Hs Hst Hch Hrs. unfold Exit. simpl. rewrite Hs. simpl.
  take_active_branch Hst. rewrite Hch. simpl. rewrite Hs. simpl.
  rewrite Hrs. simpl. by rewrite (finalize_lookup _ _ _ Hs).
Qed.

(** X11.  [Exit] on an active Scope that holds nothing returns nil
    whatever the context, expired or not: the context is consulted after
    a step, and there is none. *)
Theorem X11_Exit_of_empty_scope ctx opts s h w sc :
  h !! s = Some sc →
  st sc = active → children sc = [] → reapers sc = [] →
  Exit ctx opts s h w
  = Some (Ret None, run_detach (detach sc) (finalize s h), w).
Proof. apply Exit_empty. Qed.

(** X14.  [MustSpawn] returns normally exactly when the Scope is active
    and the Spawner reports no error; in every other case it panics, and
    a panic leaves the store as it was.  On a Scope that is not active the
    Spawner does not run. *)
Theorem X14_MustSpawn ctx s sp h w sc :
  h !! s = Some sc →
  ∃ r h' w',
    MustSpawn ctx s sp h w = Some (r, h', w')
    ∧ (r = Ret () ↔ st sc = active ∧ (sp ctx w).1.2 = None)
    ∧ (r = Panic → h' = h)
    ∧ (r = Ret () →
       h' = <[s := set_reapers (reapers sc ++ [(sp ctx w).1.1]) sc]> h)
    ∧ (st sc ≠ active → w' = w).
Proof.
  intros Hs. unfold MustSpawn, Spawn. rewrite Hs. simpl.
  destruct (decide (st sc ≠ active)) as [Hst|Hst]; simpl.
  { do 3 eexists. split; [done|]. repeat split; try done.
    by intros [? _]. }
  assert (Hact : st sc = active).
  { destruct (st sc); [done|]. by destruct Hst. }
  destruct (sp ctx w) as [[r [e|]] w1]; simpl;
    do 3 eexists; (split; [done|]); repeat split; try done.
  by intros [_ ?].
Qed.

(** X15.  Error handlers do not chain: of several [WithErrorHandler]
    options only the last one is notified, and without any the errors
    are discarded. *)
Theorem X15_last_handler_wins ctx opts eh s h w :
  Exit ctx (opts ++ [WithErrorHandler eh]) s h w
  = Exit ctx [WithErrorHandler eh] s h w
  ∧ Exit ctx [] s h w = Exit ctx [WithErrorHandler (λ _ w, w)] s h w.
Proof.
  split; [|done]. unfold Exit, new_exitCfg. by rewrite foldl_app.
Qed.

(** X1.  [NewScope] puts at a free address an active Scope without
    Reapers or children and with the empty [detach]; its channel is its
    own, or the one of the last [WithErrorChan] option; no other Scope
    changes. *)
Theorem X1_NewScope opts h p h' :
  NewScope opts h = (p, h') →
  h !! p = None
  ∧ h' !! p = Some (mkScope active [] [] (chan_of_opts (ChanOf p) opts)
                      DetachNop)
  ∧ Err p h' = Some (chan_of_opts (ChanOf p) opts)
  ∧ ∀ q, q ≠ p → h' !! q = h !! q.
Proof.
  destruct (NewScope_inv opts h) as [-> Hf]. intros [= <- <-].
  split; [done|]. unfold Err. rewrite lookup_insert_eq.
  split; [done|]. split; [done|].
  intros q Hq. by rewrite lookup_insert_ne.
Qed.

(** X2.  A child made with [WithErrorChan] of its parent's channel as the
    last option reports on the parent's channel; a child made without
    options has a channel of its own. *)
Theorem X2_child_channel s opts h parent c h' :
  h !! s = Some parent →
  st parent = active →
  NewChildScope s opts h = Some (c, h') →
  Err s h' = Err s h
  ∧ Err c h' = Some (chan_of_opts (ChanOf c) opts)
  ∧ (last opts = Some (WithErrorChan (errors parent)) → Err c h' = Err s h')
  ∧ (opts = [] → Err c h' = Some (ChanOf c)).
Proof.
  intros Hs Hst Hc.
  apply NewChildScope_inv in Hc
    as (parent' & Hs0 & [(Hna & _)|(_ & -> & Hf & Hs' & Hc' & _)]).
  { simplify_eq. }
  simplify_eq. unfold Err. rewrite Hs, Hs', Hc'. simpl.
  split; [done|]. split; [done|]. split.
  - intros Hl. unfold chan_of_opts. by rewrite Hl.
  - by intros ->.
Qed.

End Shape.

(** ** A child made and exited *)

Section RoundTrip.
Context {World : Type}.
Implicit Types (h : gmap ptr (Scope World)) (t : tree World) (w : World).
Implicit Types (ctx : Ctx World) (ec : exitCfg World).

Lemma list_Remove_snoc c (l : list ptr) :
  c ∉ l → list_Remove c (l ++ [c]) = l.
Proof.
  unfold list_Remove. induction l as [|x l IH]; intros Hc; simpl.
  - rewrite (filter_cons _ c []). by rewrite decide_False by (by intros []).
  - apply not_elem_of_cons in Hc as [Hne Hc].
    rewrite (filter_cons _ x (l ++ [c])), decide_True by done.
    by rewrite IH.
Qed.

(** X12.  A child that is created and exited at once leaves no trace in
    its parent: the store is the one before [NewChildScope], plus the
    child, done and empty.  The world is untouched. *)
Theorem X12_child_round_trip ctx opts eopts s h w parent c h1 :
  reachable h →
  h !! s = Some parent →
  st parent = active →
  NewChildScope s opts h = Some (c, h1) →
  Exit ctx eopts c h1 w
  = Some (Ret None,
          <[c := mkScope done [] [] (chan_of_opts (ChanOf c) opts)
                   (DetachFrom s c)]> h, w).
Proof.
  intros Hr Hs Hst Hc. pose proof (reachable_well_formed h Hr) as Hwf.
  apply NewChildScope_inv in Hc
    as (parent' & Hs0 & [(Hna & _)|(_ & -> & Hf & Hs' & Hc' & Hfr)]).
  { simplify_eq. }
  simplify_eq. set (c := fresh (dom h)) in *.
  rewrite (Exit_empty ctx eopts c h1 w _ Hc') by done. simpl.
  f_equal. f_equal. f_equal. apply map_eq. intros q.
  assert (Hcs : c ≠ s) by (intros Heq; rewrite Heq in Hf; congruence).
  destruct (decide (q = c)) as [->|Hqc].
  { rewrite lookup_insert_eq, lookup_alter_ne by done.
    unfold finalize. by rewrite lookup_alter_eq, Hc'. }
  rewrite lookup_insert_ne by done.
  destruct (decide (q = s)) as [->|Hqs].
  - rewrite lookup_alter_eq. unfold finalize.
    rewrite lookup_alter_ne, Hs', Hs by done. simpl. f_equal.
    destruct parent as [pst pch prs per pd]. unfold set_children. simpl.
    f_equal. apply list_Remove_snoc. intros Hin.
    destruct (wf_child h Hwf s _ c Hs Hin) as (_ & csc & Hcc & _).
    congruence.
  - rewrite lookup_alter_ne by done. unfold finalize.
    rewrite lookup_alter_ne by done. by apply Hfr.
Qed.

End RoundTrip.

(** ** Children exited on their own, and children passed over *)

Section Children.
Context {World : Type}.
Implicit Types (h : gmap ptr (Scope World)) (t : tree World) (w : World).
Implicit Types (ctx : Ctx World) (ec : exitCfg World).

Lemma list_Remove_middle (x : ptr) (l1 l2 : list ptr) :
  NoDup (l1 ++ x :: l2) → list_Remove x (l1 ++ x :: l2) = l1 ++ l2.
Proof.
  intros Hnd. apply NoDup_app in Hnd as (_ & Hd & Hnd).
  apply NoDup_cons in Hnd as [Hx2 _].
  assert (Hx1 : x ∉ l1) by (intros Hin; apply (Hd x Hin); left).
  assert (Hkeep : ∀ l : list ptr, x ∉ l → list_Remove x l = l).
  { unfold list_Remove. induction l as [|y l IH]; intros Hl; [done|].
    apply not_elem_of_cons in Hl as [Hne Hl].
    rewrite (filter_cons _ y l), decide_True by done. by rewrite IH. }
  unfold list_Remove in *. rewrite filter_app, (filter_cons _ x l2).
  rewrite decide_False by (by intros []). by rewrite !Hkeep.
Qed.

(** The tree of a Scope once one of its children has exited. *)
Lemma Exit_child_repr ctx opts h w p sc (ks1 ks2 : list (tree World)) k
    err h1 w1 :
  well_formed h →
  repr h (Node p sc (ks1 ++ k :: ks2)) →
  Exit ctx opts (root k) h w = Some (Ret err, h1, w1) →
  repr h1 (Node p (set_children (root <$> (ks1 ++ ks2)) sc) (ks1 ++ ks2)).
Proof.
  intros Hwf Hr He.
  inversion Hr as [? ? ? Hp Hc Hk]; subst.
  assert (Hink : k ∈ ks1 ++ k :: ks2).
  { rewrite elem_of_app, elem_of_cons. tauto. }
  destruct (repr_kid_child _ _ _ _ _ Hr Hink) as [Hrk Hreprk].
  destruct (wf_child h Hwf p sc (root k) Hp Hrk) as (Hlt & csc & Hcsc & Hdet).
  rewrite (repr_root _ _ Hreprk) in Hcsc. simplify_eq.
  assert (Hpk : p ∉ ptrs k).
  { intros Hin. pose proof (ptrs_ge _ _ _ Hwf Hreprk Hin). lia. }
  pose proof (well_formed_repr_is_tree _ _ Hwf Hreprk) as Htk.
  destruct (Exit_frame ctx opts k h w p sc Htk Hdet Hp Hpk)
    as [(h' & He' & Hfr & Hpa) _].
  rewrite He in He'.
  destruct (exit_tree ctx (new_exitCfg opts) k w) as [rr ww] eqn:Het.
  simpl in He', Hpa. simplify_eq.
  pose proof (wf_NoDup h Hwf p sc Hp) as Hnd. rewrite Hc in Hnd.
  rewrite fmap_app, fmap_cons in Hnd.
  assert (Hp1 : h' !! p = Some (set_children (root <$> (ks1 ++ ks2)) sc)).
  { rewrite Hpa by done. rewrite Hc, fmap_app, fmap_cons.
    by rewrite list_Remove_middle, <- fmap_app. }
  constructor; [done|done|].
  rewrite Forall_forall. intros k' Hin'.
  assert (Hin0 : k' ∈ ks1 ++ k :: ks2).
  { rewrite elem_of_app, elem_of_cons. rewrite elem_of_app in Hin'. tauto. }
  destruct (repr_kid_child _ _ _ _ _ Hr Hin0) as [Hrk' Hreprk'].
  assert (Hne : root k' ≠ root k).
  { intros Heq. apply NoDup_app in Hnd as (_ & Hd & Hnd2).
    apply NoDup_cons in Hnd2 as [Hx2 _].
    apply elem_of_app in Hin' as [Hin'|Hin'].
    - apply (Hd (root k)); [|left]. rewrite <- Heq.
      by apply list_elem_of_fmap_2.
    - apply Hx2. rewrite <- Heq. by apply list_elem_of_fmap_2. }
  eapply repr_agree; [done|]. intros q Hq. apply Hfr.
  - intros Hqk.
    by apply (siblings_disjoint h p sc k' k Hwf Hp Hrk' Hrk Hne
                Hreprk' Hreprk q).
  - destruct (wf_child h Hwf p sc (root k') Hp Hrk') as (Hlt' & _).
    pose proof (ptrs_ge _ _ _ Hwf Hreprk' Hq). lia.
Qed.

(** X13.  When a child has been exited on its own, its parent's tree is
    the old one without that child: the parent's record lists the other
    children in their old order, and they are unchanged.  Exiting the
    parent afterwards under a context that has not expired runs the
    [teardown_order] of that smaller tree, so nothing of the exited child
    runs a second time. *)
Theorem X13_exit_child_then_parent ctx opts h w p sc
    (ks1 ks2 : list (tree World)) k err h1 w1 :
  reachable h →
  repr h (Node p sc (ks1 ++ k :: ks2)) →
  Exit ctx opts (root k) h w = Some (Ret err, h1, w1) →
  let t' := Node p (set_children (root <$> (ks1 ++ ks2)) sc) (ks1 ++ ks2) in
  is_tree h1 t'
  ∧ ∀ ctx2 opts2 w2, ctx_Err ctx2 w2 = None →
      ∃ h2, Exit ctx2 opts2 p h1 w2
            = Some ((reap ctx2 (new_exitCfg opts2) (teardown_order t') w2).1,
                    h2,
                    (reap ctx2 (new_exitCfg opts2) (teardown_order t') w2).2).
Proof.
  intros Hreach Hr He t'.
  pose proof (reachable_well_formed h Hreach) as Hwf.
  assert (Hreach1 : reachable h1) by (by eapply reach_Exit).
  pose proof (reachable_well_formed h1 Hreach1) as Hwf1.
  pose proof (Exit_child_repr _ _ _ _ _ _ _ _ _ _ _ _ Hwf Hr He) as Hr1.
  pose proof (well_formed_repr_is_tree _ _ Hwf1 Hr1) as Ht1.
  split; [done|]. intros ctx2 opts2 w2 Hctx.
  destruct (Exit_refines ctx2 opts2 t' h1 w2 Ht1) as (h2 & _ & _ & HE).
  change (root t') with p in HE. rewrite HE.
  rewrite (exit_tree_flat _ _ t' w2 Hctx). by eexists.
Qed.

(** Under a context that is expired throughout, [exit] on an active Scope
    goes into its youngest child only. *)
Lemma exit_expired_frame ctx ec fuel h w p sc (ks : list (tree World)) k
    ce r h' w' :
  is_tree h (Node p sc (ks ++ [k])) →
  st sc = active →
  (∀ w, ctx_Err ctx w = Some ce) →
  height k ≤ fuel →
  exit (S fuel) ctx ec p h w = Some (r, h', w') →
  (r, w') = after_step ctx ec (exit_tree ctx ec k w)
  ∧ (∀ q, q ∉ ptrs k → q ≠ p → h' !! q = h !! q)
  ∧ h' !! p = Some (finalized sc).
Proof.
  intros [Hr Hnd] Hst Hctx Hfuel He.
  inversion Hr as [? ? ? Hp Hc Hk]; subst.
  apply Forall_app in Hk as [Hks Hk]. apply Forall_inv in Hk.
  simpl in Hnd. apply NoDup_cons in Hnd as [Hpk Hnd].
  rewrite fmap_app, join_app in Hnd, Hpk. simpl in Hnd, Hpk.
  rewrite app_nil_r in Hnd, Hpk.
  apply NoDup_app in Hnd as (_ & _ & Hndk).
  simpl in He. rewrite Hp in He. simpl in He.
  rewrite decide_False in He by (by rewrite Hst; intros []).
  rewrite Hc, fmap_app, reverse_app in He. simpl in He.
  destruct (exit_refines ctx ec k fuel h w Hfuel Hk Hndk)
    as (hk & Hek & Hfr & _).
  rewrite Hek in He. simpl in He.
  assert (Hpk' : hk !! p = Some sc).
  { rewrite Hfr; [done|]. intros Hin. apply Hpk. rewrite elem_of_app. tauto. }
  destruct (exit_tree ctx ec k w) as [[err|] wk]; simpl in He |- *.
  - rewrite Hctx in He |- *. simpl in He. simplify_eq.
    split; [done|]. split.
    + intros q Hq Hne. rewrite finalize_lookup_ne by done. by apply Hfr.
    + by apply finalize_lookup.
  - simplify_eq. split; [done|]. split.
    + intros q Hq Hne. rewrite finalize_lookup_ne by done. by apply Hfr.
    + by apply finalize_lookup.
Qed.

(** X10.  [Exit] under a context that is already expired, on an active
    Scope with children: only the youngest child is gone into.  The
    result and the world are those of that one visit, the Scope itself is
    left done and empty, and every older child is still the tree it was,
    its Reapers not run and no longer listed anywhere. *)
Theorem X10_expired_exit_spares_older_children ctx opts h w p sc
    (ks : list (tree World)) k ce r h' w' :
  reachable h →
  repr h (Node p sc (ks ++ [k])) →
  st sc = active →
  (∀ w, ctx_Err ctx w = Some ce) →
  Exit ctx opts p h w = Some (r, h', w') →
  (r, w') = after_step ctx (new_exitCfg opts)
              (exit_tree ctx (new_exitCfg opts) k w)
  ∧ r ≠ Ret None
  ∧ h' !! p = Some (finalized sc)
  ∧ Forall (is_tree h') ks.
Proof.
  intros Hreach Hr Hst Hctx He.
  pose proof (reachable_well_formed h Hreach) as Hwf.
  assert (Hreach' : reachable h') by (by eapply reach_Exit).
  pose proof (reachable_well_formed h' Hreach') as Hwf'.
  pose proof (well_formed_repr_is_tree _ _ Hwf Hr) as Ht.
  inversion Hr as [? ? ? Hp Hc Hk]; subst.
  assert (Hink : k ∈ ks ++ [k]).
  { rewrite elem_of_app, elem_of_cons. tauto. }
  destruct (repr_kid_child _ _ _ _ _ Hr Hink) as [Hrk Hreprk].
  pose proof (well_formed_repr_is_tree _ _ Hwf Hreprk) as Htk.
  unfold Exit in He. cbv zeta in He.
  destruct (exit (S (size h)) ctx (new_exitCfg opts) p h w)
    as [[[r1 h1] w1]|] eqn:Hex; [|done].
  cbn [mbind option_bind] in He.
  destruct (exit_expired_frame ctx (new_exitCfg opts) (size h) h w p sc ks k
              ce r1 h1 w1 Ht Hst Hctx (is_tree_size _ _ Htk) Hex)
    as (Hrw & Hfr & Hp1).
  assert (Hne : r1 ≠ Ret None).
  { destruct (exit_tree ctx (new_exitCfg opts) k w) as [[err|] wk];
      simpl in Hrw; [rewrite Hctx in Hrw|]; by simplify_eq. }
  assert (Hold : ∀ k0 q, k0 ∈ ks → q ∈ ptrs k0 →
                         (q ∉ ptrs k) ∧ p < q ∧ h1 !! q = h !! q).
  { intros k0 q Hin0 Hq.
    assert (Hin0' : k0 ∈ ks ++ [k]) by (rewrite elem_of_app; tauto).
    destruct (repr_kid_child _ _ _ _ _ Hr Hin0') as [Hrk0 Hreprk0].
    destruct (wf_child h Hwf p sc (root k0) Hp Hrk0) as (Hlt & _).
    pose proof (ptrs_ge _ _ _ Hwf Hreprk0 Hq) as Hge.
    destruct Ht as [_ Hnd]. simpl in Hnd.
    apply NoDup_cons in Hnd as [_ Hnd].
    rewrite fmap_app, join_app in Hnd. simpl in Hnd.
    rewrite app_nil_r in Hnd. apply NoDup_app in Hnd as (_ & Hd & _).
    assert (Hqk : q ∉ ptrs k).
    { apply Hd. by eapply ptrs_kid. }
    split; [done|]. split; [lia|]. apply Hfr; [done|lia]. }
  assert (Hfin : ∀ h2, (∀ q, p < q → h2 !! q = h1 !! q) →
                       Forall (is_tree h2) ks).
  { intros h2 H2. rewrite Forall_forall. intros k0 Hin0.
    assert (Hin0' : k0 ∈ ks ++ [k]) by (rewrite elem_of_app; tauto).
    destruct (repr_kid_child _ _ _ _ _ Hr Hin0') as [_ Hreprk0].
    destruct (well_formed_repr_is_tree _ _ Hwf Hreprk0) as [_ Hnd0].
    split; [|done]. eapply repr_agree; [done|]. intros q Hq.
    destruct (Hold k0 q Hin0 Hq) as (_ & Hlt & Heq).
    rewrite H2 by done. done. }
  destruct r1 as [err|]; simpl in He.
  - rewrite Hp1 in He. simpl in He. simplify_eq.
    assert (Hdet : ∀ q, p ≤ q → run_detach (detach sc) h1 !! q = h1 !! q).
    { intros q Hq. destruct (detach sc) as [|pa e] eqn:Hd; simpl; [done|].
      destruct (reachable_detach h p sc pa e Hreach Hp Hd) as [_ Hlt].
      apply lookup_alter_ne. lia. }
    split; [done|]. split; [done|]. split.
    + by rewrite Hdet, Hp1.
    + apply Hfin. intros q Hq. apply Hdet. lia.
  - simplify_eq. split; [done|]. split; [done|]. split; [done|].
    by apply Hfin.
Qed.

End Children.

(** ** A teardown that returns nil is complete *)

Section Completeness.
Context {World : Type}.
Implicit Types (h : gmap ptr (Scope World)) (t : tree World) (w : World).
Implicit Types (ctx : Ctx World) (ec : exitCfg World).

(** A recursive [exit] that hands [nil] to the loop of its parent and
    lets that loop go on has itself returned [nil]. *)
Lemma exit_nil_step fuel ctx ec s h w err h' w' :
  exit fuel ctx ec s h w = Some (Ret err, h', w') →
  ctx_Err ctx (report ctx ec err w') = None → err = None.
Proof.
  intros He Hctx. destruct err as [e|]; [|done].
  pose proof (exit_err _ _ _ _ _ _ _ _ _ He) as Hce.
  rewrite (report_ctx_err _ _ _ _ Hce) in Hctx. congruence.
Qed.

Lemma walk_nil_finalizes ctx ec fuel (kids : list (tree World)) :
  Forall (λ k, ∀ h w h1 w1,
    (∀ q sc, q ∈ ptrs k → h !! q = Some sc → st sc ≠ active →
             children sc = []) →
    repr h k → NoDup (ptrs k) →
    exit fuel ctx ec (root k) h w = Some (Ret None, h1, w1) →
    ∀ q, q ∈ ptrs k → ∃ sc', h1 !! q = Some (finalized sc')) kids →
  Forall (λ k, height k ≤ fuel) kids →
  ∀ h w h1 w1,
    (∀ q sc, q ∈ mjoin (ptrs <$> kids) → h !! q = Some sc →
             st sc ≠ active → children sc = []) →
    Forall (repr h) kids → NoDup (mjoin (ptrs <$> kids)) →
    walk (exit fuel ctx ec) ctx ec (reverse (root <$> kids)) h w
    = Some (Ret None, h1, w1) →
    ∀ q, q ∈ mjoin (ptrs <$> kids) → ∃ sc', h1 !! q = Some (finalized sc').
Proof.
  induction kids as [|k ks IH] using rev_ind;
    intros Hall Hht h w h1 w1 Hinv Hr Hnd Hw q Hq.
  { by apply elem_of_nil in Hq. }
  apply Forall_app in Hall as [Halls Hallk].
  apply Forall_app in Hht as [Hhts Hhtk].
  apply Forall_app in Hr as [Hrs Hrk].
  apply Forall_inv in Hallk, Hhtk, Hrk.
  rewrite fmap_app, join_app in Hnd, Hq, Hinv. simpl in Hnd, Hq, Hinv.
  rewrite app_nil_r in Hnd, Hq, Hinv.
  apply NoDup_app in Hnd as (Hnds & Hdisj & Hndk).
  rewrite fmap_app, reverse_app in Hw. simpl in Hw.
  destruct (exit_refines ctx ec k fuel h w Hhtk Hrk Hndk)
    as (hk & Hek & Hfr & _).
  rewrite Hek in Hw. simpl in Hw.
  destruct (exit_tree ctx ec k w) as [[err|] wk] eqn:Het;
    simpl in Hw, Hek; [|done].
  destruct (ctx_Err ctx (report ctx ec err wk)) as [ce|] eqn:Hctx; [done|].
  pose proof (exit_nil_step _ _ _ _ _ _ _ _ _ Hek Hctx) as ->.
  assert (Hk : ∀ q, q ∈ ptrs k → ∃ sc', hk !! q = Some (finalized sc')).
  { apply (Hallk h w hk wk); try done.
    intros q' sc' Hq'. apply (Hinv q'). rewrite elem_of_app. tauto. }
  assert (Hfrs : ∀ q, q ∈ mjoin (ptrs <$> ks) → hk !! q = h !! q).
  { intros q' Hq'. apply Hfr. by apply Hdisj. }
  assert (Hrs1 : Forall (repr hk) ks).
  { rewrite Forall_forall in Hrs |- *. intros k' Hin.
    eapply repr_agree; [by apply Hrs|]. intros q' Hq'. apply Hfrs.
    by eapply ptrs_kid. }
  assert (Hoks : Forall (exit_ok ctx ec) ks).
  { rewrite Forall_forall. intros k' _. apply exit_refines. }
  destruct (walk_refines ctx ec fuel ks Hoks Hhts hk (report ctx ec None wk)
              Hrs1 Hnds) as (h2 & Hw2 & Hfr2).
  rewrite Hw in Hw2. simplify_eq.
  apply elem_of_app in Hq as [Hq|Hq].
  - eapply (IH Halls Hhts hk); try done.
    intros q' sc' Hq' Hl. rewrite Hfrs in Hl by done.
    apply (Hinv q'); [|done]. rewrite elem_of_app. tauto.
  - rewrite Hfr2; [by apply Hk|]. intros Hq'. by apply (Hdisj q).
Qed.

Lemma exit_nil_finalizes ctx ec t :
  ∀ fuel h w h1 w1,
    (∀ q sc, q ∈ ptrs t → h !! q = Some sc → st sc ≠ active →
             children sc = []) →
    repr h t → NoDup (ptrs t) → height t ≤ fuel →
    exit fuel ctx ec (root t) h w = Some (Ret None, h1, w1) →
    ∀ q, q ∈ ptrs t → ∃ sc', h1 !! q = Some (finalized sc').
Proof.
  induction t as [p sc kids IH] using tree_ind'.
  intros fuel h w h1 w1 Hinv Hr Hnd Hfuel He q Hq.
  inversion Hr as [? ? ? Hp Hc Hk]; subst.
  destruct fuel as [|fuel]; [simpl in Hfuel; lia|].
  simpl in Hnd. apply NoDup_cons in Hnd as [Hpk Hndk].
  simpl in He. rewrite Hp in He. simpl in He.
  destruct (decide (st sc ≠ active)) as [Hst|Hst].
  { simplify_eq.
    assert (Hnil : kids = []).
    { apply (fmap_nil_inv root). rewrite <- Hc. apply (Hinv p); [left|done..]. }
    subst kids. simpl in Hq. apply list_elem_of_singleton in Hq as ->.
    exists sc. by apply finalize_lookup. }
  assert (Hhts : Forall (λ k, height k ≤ fuel) kids).
  { simpl in Hfuel. rewrite Forall_forall. intros k Hin.
    assert (height k ≤ max_list (height <$> kids)); [|lia].
    apply max_list_elem_of_le. by apply list_elem_of_fmap_2. }
  rewrite Hc in He.
  assert (Hoks : Forall (exit_ok ctx ec) kids).
  { rewrite Forall_forall. intros k' _. apply exit_refines. }
  destruct (walk_refines ctx ec fuel kids Hoks Hhts h w Hk Hndk)
    as (h2 & Hw & Hfr).
  rewrite Hw in He. simpl in He.
  destruct (walk_back (exit_tree ctx ec) ctx ec kids w) as [[[e|]|] w2] eqn:Hwb;
    simpl in He, Hw; [by simplify_eq| |by simplify_eq].
  assert (Hp2 : h2 !! p = Some sc) by (by rewrite Hfr).
  rewrite Hp2 in He. simpl in He.
  destruct (reap ctx ec (reverse (reapers sc)) w2) as [r2 w3]. simplify_eq.
  simpl in Hq. apply elem_of_cons in Hq as [->|Hq].
  { exists sc. by apply finalize_lookup. }
  rewrite finalize_lookup_ne by (by intros ->).
  eapply (walk_nil_finalizes ctx ec fuel kids); try done.
  - rewrite Forall_forall in IH |- *. intros k Hin h0 w0 h3 w4 Hinv0 Hr0 Hnd0 He0.
    eapply (IH k Hin fuel); try done.
    rewrite Forall_forall in Hhts. by apply Hhts.
  - intros q' sc' Hq'. apply (Hinv q'). by right.
Qed.

(** X5.  When [Exit] returns nil, the teardown is complete: every Scope
    of the subtree, not the exited one alone, is left done, without
    children and without Reapers, so nothing can be spawned in any of
    them any more. *)
Theorem X5_nil_Exit_is_complete ctx opts h t w h' w' :
  reachable h →
  repr h t →
  Exit ctx opts (root t) h w = Some (Ret None, h', w') →
  ∀ q, q ∈ ptrs t →
    ∃ sc', h' !! q = Some sc'
           ∧ st sc' = done ∧ children sc' = [] ∧ reapers sc' = [].
Proof.
  intros Hreach Hr He q Hq.
  pose proof (reachable_well_formed h Hreach) as Hwf.
  destruct (well_formed_repr_is_tree _ _ Hwf Hr) as [_ Hnd].
  unfold Exit in He. cbv zeta in He.
  destruct (exit (S (size h)) ctx (new_exitCfg opts) (root t) h w)
    as [[[r1 h1] w1]|] eqn:Hex; [|done].
  cbn [mbind option_bind] in He.
  destruct r1 as [err|]; [|done].
  destruct (h1 !! root t) as [sc1|] eqn:H1; [|done].
  cbn [mbind option_bind] in He. simplify_eq.
  assert (Hfin : ∃ sc', h1 !! q = Some (finalized sc')).
  { eapply (exit_nil_finalizes ctx (new_exitCfg opts) t (S (size h)) h w);
      try done.
    - intros q' sc' _ Hl Hst.
      apply (reachable_done_empty h q' sc' Hreach Hl).
      by destruct (st sc').
    - pose proof (is_tree_size h t (conj Hr Hnd)). lia. }
  destruct Hfin as [sc' Hq1].
  destruct (detach sc1) as [|pa e] eqn:Hd; simpl.
  { by exists (finalized sc'). }
  destruct (decide (pa = q)) as [->|Hne].
  - rewrite lookup_alter_eq, Hq1. simpl. by eexists.
  - rewrite lookup_alter_ne by done. by exists (finalized sc').
Qed.

End Completeness.

(** ** How a tree grows *)

Section Growth.
Context {World : Type}.
Implicit Types (h : gmap ptr (Scope World)) (t : tree World) (w : World).
Implicit Types (ctx : Ctx World) (ec : exitCfg World).

(** X8.  A Reaper that [Spawn] has just stored is the first of the
    Scope's own Reapers to run at teardown: it runs after every child has
    been torn down and before every Reaper stored earlier.  The children
    are not affected by the [Spawn]. *)
Theorem X8_spawned_last_runs_first ctx sp h w s sc
    (kids : list (tree World)) r w1 :
  is_tree h (Node s sc kids) →
  st sc = active →
  sp ctx w = ((r, None), w1) →
  let t' := Node s (set_reapers (reapers sc ++ [r]) sc) kids in
  ∃ h1, Spawn ctx sp s h w = Some (None, h1, w1)
      ∧ is_tree h1 t'
      ∧ teardown_order t'
        = mjoin (reverse (teardown_order <$> kids)) ++ r :: reverse (reapers sc)
      ∧ ∀ ctx2 opts2 w2, ctx_Err ctx2 w2 = None →
          ∃ h2, Exit ctx2 opts2 s h1 w2
                = Some ((reap ctx2 (new_exitCfg opts2) (teardown_order t') w2).1,
                        h2,
                        (reap ctx2 (new_exitCfg opts2) (teardown_order t') w2).2).
Proof.
  intros Ht Hst Hsp t'.
  assert (Hs : h !! s = Some sc).
  { destruct Ht as [Hr _]. by inversion Hr. }
  exists (<[s := set_reapers (reapers sc ++ [r]) sc]> h).
  split; [by apply Spawn_ok|].
  assert (Ht' : is_tree (<[s := set_reapers (reapers sc ++ [r]) sc]> h) t').
  { by apply (is_tree_set_root h s sc). }
  split; [done|]. split.
  - simpl. take_active_branch Hst. by rewrite reverse_app.
  - intros ctx2 opts2 w2 Hctx.
    destruct (Exit_refines ctx2 opts2 t' _ w2 Ht') as (h2 & _ & _ & HE).
    change (root t') with s in HE. rewrite HE.
    rewrite (exit_tree_flat _ _ t' w2 Hctx). by eexists.
Qed.

(** X16.  [NewChildScope] on an active Scope makes the new Scope its
    youngest child, a leaf, and leaves the rest of the tree as it was.
    The new child holds nothing yet, so the teardown order of the tree is
    the same as before; were one Reaper stored in the child, it would
    head the teardown order of the whole tree. *)
Theorem X16_new_child_is_youngest s opts h sc (kids : list (tree World))
    c h1 :
  is_tree h (Node s sc kids) →
  st sc = active →
  NewChildScope s opts h = Some (c, h1) →
  let child := Node c (mkScope active [] [] (chan_of_opts (ChanOf c) opts)
                         (DetachFrom s c)) [] in
  let t' := Node s (set_children (children sc ++ [c]) sc) (kids ++ [child]) in
  is_tree h1 t'
  ∧ teardown_order t' = teardown_order (Node s sc kids)
  ∧ ∀ r, teardown_order
           (Node s (set_children (children sc ++ [c]) sc)
              (kids ++ [Node c (set_reapers [r] (scope_of child)) []]))
         = r :: teardown_order (Node s sc kids).
Proof.
  intros [Hr Hnd] Hst Hc child t'.
  inversion Hr as [? ? ? Hs Hch Hk]; subst.
  apply NewChildScope_inv in Hc
    as (parent & Hs0 & [(Hna & _)|(_ & -> & Hf & Hs' & Hc' & Hfr)]);
    simplify_eq.
  set (c := fresh (dom h)) in *.
  simpl in Hnd. apply NoDup_cons in Hnd as [Hsk Hndk].
  assert (Hcs : c ≠ s) by (intros Heq; rewrite Heq in Hf; congruence).
  assert (Hck : c ∉ mjoin (ptrs <$> kids)).
  { intros Hin. apply ptrs_kid_inv in Hin as (k & Hin & Hq).
    rewrite Forall_forall in Hk.
    destruct (repr_dom h k c (Hk k Hin) Hq) as [x Hx]. congruence. }
  split; [|split].
  - split.
    + constructor.
      * done.
      * simpl. by rewrite fmap_app, Hch.
      * apply Forall_app. split.
        -- rewrite Forall_forall in Hk |- *. intros k Hin.
           eapply repr_agree; [by apply Hk|]. intros q Hq. apply Hfr.
           ++ intros ->. apply Hsk. by eapply ptrs_kid.
           ++ intros ->. apply Hck. by eapply ptrs_kid.
        -- apply Forall_singleton. by constructor.
    + simpl. rewrite fmap_app, join_app. simpl. rewrite ?app_nil_r.
      apply NoDup_cons. split.
      * rewrite elem_of_app, list_elem_of_singleton. intros [?|?]; [done|].
        by apply Hcs.
      * apply NoDup_app. split; [done|]. split; [|apply NoDup_singleton].
        intros q Hq Hq'. apply list_elem_of_singleton in Hq' as ->. done.
  - simpl. rewrite !decide_False by (by rewrite ?Hst; intros []).
    by rewrite fmap_app, reverse_app.
  - intros r. simpl. rewrite !decide_False by (by rewrite ?Hst; intros []).
    by rewrite fmap_app, reverse_app.
Qed.

(** X18.  [Spawn] stores a Reaper exactly when it returns nil.  When it
    returns an error the store is unchanged: if the Spawner handed back a
    Reaper together with its error, that Reaper is dropped and no later
    [Exit] runs it.  When it returns nil, one Reaper has been appended to
    the Scope, which was active, and nothing else has changed. *)
Theorem X18_Spawn_stores_iff_nil ctx sp s h w err h' w' :
  Spawn ctx sp s h w = Some (err, h', w') →
  (err ≠ None → h' = h)
  ∧ (err = None →
     ∃ sc, h !! s = Some sc ∧ st sc = active
           ∧ (sp ctx w).1.2 = None
           ∧ h' = <[s := set_reapers (reapers sc ++ [(sp ctx w).1.1]) sc]> h
           ∧ w' = (sp ctx w).2).
Proof.
  unfold Spawn. destruct (h !! s) as [sc|] eqn:Hs; simpl; [|done].
  destruct (decide (st sc ≠ active)) as [Hst|Hst].
  { intros [= <- <- <-]. split; [done|]. intros [=]. }
  assert (Hact : st sc = active).
  { destruct (st sc); [done|]. by destruct Hst. }
  destruct (sp ctx w) as [[r [e|]] w1]; simpl; intros [= <- <- <-].
  - split; [done|]. intros [=].
  - split; [done|]. intros _. by exists sc.
Qed.

End Growth.

(** ** The further properties at concrete inputs *)

Lemma Demo_child_reachable opts (sh : ptr * gmap ptr (Scope Demo.journal)) :
  reachable sh.2 → reachable (Demo.with_child opts sh).2.
Proof.
  intros Hr. unfold Demo.with_child.
  destruct (NewChildScope _ _ _) as [[c h1]|] eqn:Hc; [|exact Hr].
  exact (reach_NewChildScope _ _ _ _ _ Hr Hc).
Defined.

Lemma Demo_Spawn_reachable {W : Type} ctx sp s (h : gmap ptr (Scope W)) w :
  reachable h → reachable (Demo.store_of (Spawn ctx sp s h w)).
Proof.
  intros Hr. destruct (Spawn ctx sp s h w) as [[[err h1] w1]|] eqn:Hs.
  - exact (reach_Spawn _ _ _ _ _ _ _ _ Hr Hs).
  - apply reach_empty.
Defined.

Lemma Demo_Exit_reachable {W : Type} ctx opts s (h : gmap ptr (Scope W)) w :
  reachable h → reachable (Demo.store_of (Exit ctx opts s h w)).
Proof.
  intros Hr. destruct (Exit ctx opts s h w) as [[[r h1] w1]|] eqn:He.
  - exact (reach_Exit _ _ _ _ _ _ _ _ Hr He).
  - apply reach_empty.
Defined.

Lemma Demo_family_reachable : reachable Demo.family.
Proof.
  pose proof (reach_NewScope (World:=Demo.journal) ∅ [] reach_empty) as H.
  apply (Demo_child_reachable [] (0, _)) in H.
  apply (Demo_child_reachable [] (1, _)) in H.
  apply (Demo_child_reachable [] (1, _)) in H.
  apply (Demo_child_reachable [] (0, _)) in H.
  apply (Demo_child_reachable [] (4, _)) in H.
  apply (Demo_Spawn_reachable Demo.background
           (Demo.spawner (Some (Demo.reaper "root"))) 0 _ []) in H.
  apply (Demo_Spawn_reachable Demo.background
           (Demo.spawner (Some (Demo.reaper "a"))) 1 _ []) in H.
  apply (Demo_Spawn_reachable Demo.background
           (Demo.spawner (Some (Demo.reaper "b"))) 2 _ []) in H.
  apply (Demo_Spawn_reachable Demo.background
           (Demo.spawner (Some (Demo.reaper "c"))) 3 _ []) in H.
  apply (Demo_Spawn_reachable Demo.background
           (Demo.spawner (Some (Demo.reaper "d"))) 4 _ []) in H.
  apply (Demo_Spawn_reachable Demo.background
           (Demo.spawner (Some (Demo.reaper "e"))) 5 _ []) in H.
  exact H.
Defined.

Lemma Demo_exited_reachable : reachable Demo.exited.2.
Proof.
  exact (Demo_Exit_reachable Demo.background [] 0 _ []
           (reach_NewScope (World:=Demo.journal) ∅ [] reach_empty)).
Defined.

Lemma X1_witness_second_scope :
  Err 1 (NewScope [WithErrorChan (ChanExt 7)] Demo.abc.2).2
  = Some (ChanExt 7).
Proof.
  destruct (X1_NewScope [WithErrorChan (ChanExt 7)] Demo.abc.2 1
              (NewScope [WithErrorChan (ChanExt 7)] Demo.abc.2).2)
    as (_ & _ & H & _).
  - reflexivity.
  - exact H.
Defined.

Lemma X2_witness_shared_channel :
  Err 1 (Demo.with_child [WithErrorChan (ChanOf 0)] Demo.abc).2
  = Err 0 (Demo.with_child [WithErrorChan (ChanOf 0)] Demo.abc).2.
Proof.
  destruct (X2_child_channel 0 [WithErrorChan (ChanOf 0)] Demo.abc.2
              (scope_of Demo.abc_tree) 1
              (Demo.with_child [WithErrorChan (ChanOf 0)] Demo.abc).2)
    as (_ & _ & H & _).
  - reflexivity.
  - reflexivity.
  - reflexivity.
  - apply H. reflexivity.
Defined.

Lemma X3_witness_done_stays_done :
  ∃ sc', Demo.exited_again !! 0 = Some sc' ∧ st sc' = done.
Proof.
  destruct (X3_calls_keep_scopes Demo.exited.2 Demo.exited_again 0
              (mkScope done [] [] (ChanOf 0) DetachNop))
    as (sc' & Hl & _ & _ & Hd).
  - eapply rtc_l; [apply (call_NewScope _ [])|].
    eapply rtc_l; [|apply rtc_refl].
    apply (call_Exit _ Demo.background [] 0 [] (Ret None) _ []). reflexivity.
  - reflexivity.
  - exists sc'. split; [exact Hl|]. apply Hd. reflexivity.
Defined.

Lemma X4_witness_exit_A :
  only_finalizes Demo.family
    (Demo.store_of (exit 2 Demo.background (new_exitCfg []) Demo.A
                      Demo.family []))
  ∧ dom (Demo.store_of (exit 2 Demo.background (new_exitCfg []) Demo.A
                          Demo.family []))
    = dom Demo.family.
Proof.
  apply (X4_exit_only_finalizes 2 Demo.background (new_exitCfg []) Demo.A
           Demo.family [] (Ret None) _ ["c"; "b"; "a"]).
  reflexivity.
Defined.

Lemma X5_witness_exit_A :
  ∃ sc', Demo.family_without_A !! Demo.C = Some sc'
         ∧ st sc' = done ∧ children sc' = [] ∧ reapers sc' = [].
Proof.
  apply (X5_nil_Exit_is_complete Demo.background [] Demo.family Demo.A_tree
           [] Demo.family_without_A ["c"; "b"; "a"]).
  - exact Demo_family_reachable.
  - repeat constructor; vm_compute; reflexivity.
  - reflexivity.
  - refine (bool_decide_unpack _ _). vm_compute. exact I.
Defined.


Lemma X7_witness_family :
  ∃ t, root t = Demo.Root
       ∧ scope_of t = scope_of Demo.family_tree
       ∧ is_tree Demo.family t.
Proof.
  destruct (X7_stores_are_forests Demo.family Demo_family_reachable)
    as (_ & _ & _ & H).
  apply (H Demo.Root). reflexivity.
Defined.

Lemma X8_witness_fourth_reaper :
  ∃ h1, Spawn Demo.background (Demo.spawner (Some (Demo.reaper "d"))) 0
          Demo.abc.2 []
        = Some (None, h1, [])
      ∧ ∃ h2, Exit Demo.background [] 0 h1 []
              = Some (Ret None, h2, ["d"; "c"; "b"; "a"]).
Proof.
  destruct (X8_spawned_last_runs_first Demo.background
              (Demo.spawner (Some (Demo.reaper "d"))) Demo.abc.2 [] 0
              (scope_of Demo.abc_tree) [] (Some (Demo.reaper "d")) [])
    as (h1 & Hs & _ & _ & HE).
  - solve_is_tree.
  - reflexivity.
  - reflexivity.
  - exists h1. split; [exact Hs|].
    exact (HE Demo.background [] [] eq_refl).
Defined.

Lemma X9_witness_nil_in_b :
  ∃ h', Exit Demo.background [] Demo.A Demo.family_nil []
        = Some (Panic, h', ["c"])
      ∧ st <$> h' !! Demo.A = Some done
      ∧ children <$> h' !! Demo.Root = Some [Demo.A; Demo.D].
Proof.
  exists (Demo.store_of (Exit Demo.background [] Demo.A Demo.family_nil [])).
  destruct (X9_panic_skips_detach Demo.background [] Demo.A_tree_nil
              Demo.family_nil []
              (Demo.store_of
                 (Exit Demo.background [] Demo.A Demo.family_nil []))
              ["c"]) as [H1 H2].
  - solve_is_tree.
  - reflexivity.
  - split; [reflexivity|]. split.
    + change (root Demo.A_tree_nil) with Demo.A in H1. rewrite H1.
      reflexivity.
    + rewrite (H2 Demo.Root); [reflexivity|].
      refine (bool_decide_unpack _ _). vm_compute. exact I.
Defined.

Lemma X10_witness_expired_root :
  Exit Demo.expired [] Demo.Root Demo.family []
  = Some (Ret (Some Demo.DeadlineExceeded), Demo.family_expired, ["e"])
  ∧ Forall (is_tree Demo.family_expired) [Demo.A_tree].
Proof.
  split; [reflexivity|].
  destruct (X10_expired_exit_spares_older_children Demo.expired []
              Demo.family [] Demo.Root (scope_of Demo.family_tree)
              [Demo.A_tree] Demo.D_tree Demo.DeadlineExceeded
              (Ret (Some Demo.DeadlineExceeded)) Demo.family_expired ["e"])
    as (_ & _ & _ & H).
  - exact Demo_family_reachable.
  - repeat constructor; vm_compute; reflexivity.
  - reflexivity.
  - reflexivity.
  - reflexivity.
  - exact H.
Defined.

Lemma X11_witness_expired_empty :
  ∃ h', Exit Demo.expired [] 0 Demo.fresh_scope.2 ([] : Demo.journal)
        = Some (Ret None, h', []).
Proof.
  eexists.
  apply (X11_Exit_of_empty_scope Demo.expired [] 0 Demo.fresh_scope.2 []
           (mkScope active [] [] (ChanOf 0) DetachNop)); reflexivity.
Defined.

Lemma X12_witness_child_of_abc :
  Exit Demo.expired [] 1 (Demo.with_child [] Demo.abc).2 ["x"]
  = Some (Ret None,
          <[1 := mkScope done [] [] (ChanOf 1) (DetachFrom 0 1)]> Demo.abc.2,
          ["x"]).
Proof.
  apply (X12_child_round_trip Demo.expired [] [] 0 Demo.abc.2 ["x"]
           (scope_of Demo.abc_tree) 1 (Demo.with_child [] Demo.abc).2).
  - exact Demo_abc_reachable.
  - reflexivity.
  - reflexivity.
  - reflexivity.
Defined.

Lemma X13_witness_A_then_root :
  ∃ h2, Exit Demo.background [] Demo.Root Demo.family_without_A []
        = Some (Ret None, h2, ["e"; "d"; "root"]).
Proof.
  destruct (X13_exit_child_then_parent Demo.background [] Demo.family []
              Demo.Root (scope_of Demo.family_tree) [] [Demo.D_tree]
              Demo.A_tree None Demo.family_without_A ["c"; "b"; "a"])
    as [_ H].
  - exact Demo_family_reachable.
  - repeat constructor; vm_compute; reflexivity.
  - reflexivity.
  - exact (H Demo.background [] [] eq_refl).
Defined.

Lemma X14_witness_failing_spawner :
  ∃ r h' w',
    MustSpawn Demo.background 0 (Demo.failing_spawner "testerr")
      Demo.fresh_scope.2 ([] : Demo.journal) = Some (r, h', w')
    ∧ r = Panic ∧ h' = Demo.fresh_scope.2.
Proof.
  destruct (X14_MustSpawn Demo.background 0 (Demo.failing_spawner "testerr")
              Demo.fresh_scope.2 ([] : Demo.journal)
              (mkScope active [] [] (ChanOf 0) DetachNop))
    as (r & h' & w' & He & Hiff & Hp & _).
  - reflexivity.
  - exists r, h', w'. split; [exact He|].
    assert (Hr : r = Panic).
    { destruct r as [[]|]; [|reflexivity].
      destruct (proj1 Hiff eq_refl) as [_ Hn]. discriminate Hn. }
    split; [exact Hr|]. exact (Hp Hr).
Defined.

Lemma X16_witness_child_of_abc :
  is_tree (Demo.with_child [] Demo.abc).2
    (Node 0 (set_children [1] (scope_of Demo.abc_tree))
       [Node 1 (mkScope active [] [] (ChanOf 1) (DetachFrom 0 1)) []]).
Proof.
  destruct (X16_new_child_is_youngest 0 [] Demo.abc.2
              (scope_of Demo.abc_tree) [] 1 (Demo.with_child [] Demo.abc).2)
    as (H & _).
  - solve_is_tree.
  - reflexivity.
  - reflexivity.
  - exact H.
Defined.

Lemma X17_witness_exit_A :
  ∃ h1 sc1, only_finalizes Demo.family h1
    ∧ h1 !! Demo.A = Some (finalized sc1)
    ∧ Demo.family_without_A = run_detach (detach sc1) h1.
Proof.
  apply (X17_Exit_is_exit_then_detach Demo.background [] Demo.A Demo.family
           [] (Ret None) Demo.family_without_A ["c"; "b"; "a"]).
  reflexivity.
Defined.

Lemma X18_witness_reaper_with_error :
  Demo.store_of (Spawn Demo.background Demo.reaper_and_error 0 Demo.abc.2 [])
  = Demo.abc.2.
Proof.
  apply (X18_Spawn_stores_iff_nil Demo.background Demo.reaper_and_error 0
           Demo.abc.2 [] (Some "boom") _ []).
  - reflexivity.
  - discriminate.
Defined.
